(** * UB matrix of a four-circle diffractometer (Busing and Levy)

    A shallow embedding of the notebook [UB_matrix.ipynb]: the reciprocal
    cell obtained from the metric tensor, the map [angles2cart] from
    goniometer angles to a Cartesian scattering vector, the matrix [B],
    the triad [get_T_mat], the orientation matrix [get_U] and the indexer
    [get_HKL].

    Numbers are real numbers: the arithmetic of finite values is exact.
    What numpy does outside the finite numbers is kept as an outcome of
    its own: a division by zero or a square root of a negative number
    makes numpy give inf or nan (with a warning) and go on, which is the
    outcome [NonFinite]; a division of two Python floats by zero raises,
    and so does [np.linalg.inv] when the elimination meets a pivot that is
    exactly zero, which is [Raise].  [NonFinite] absorbs what follows: the
    value is returned, but it is no longer followed entry by entry, and no
    later operation of the notebook raises on inf or nan.

    Where rounding decides what the code does, the real numbers do not:
    on a matrix that is singular without a row or a column of zeros,
    [np.linalg.inv] raises if a rounded pivot happens to be zero and
    returns the inverse of a nearby matrix otherwise.  That is the outcome
    [Undetermined], about which nothing is proved.  Overflow of the
    floating-point range is not modelled. *)

From Stdlib Require Import Reals Lra Psatz Factorial ZArith.

Open Scope R_scope.

(** ** Outcomes of a numpy computation *)

Inductive exn : Type :=
| LinAlgError
| ZeroDivisionError.

Inductive result (A : Type) : Type :=
| Ret (x : A)
| NonFinite
| Raise (e : exn)
| Undetermined.

Arguments Ret {A} x.
Arguments NonFinite {A}.
Arguments Raise {A} e.
Arguments Undetermined {A}.

Definition bind {A B : Type} (r : result A) (k : A -> result B) : result B :=
  match r with
  | Ret x => k x
  | NonFinite => NonFinite
  | Raise e => Raise e
  | Undetermined => Undetermined
  end.

Notation "x <- r ;; k" := (bind r (fun x => k))
  (at level 61, r at next level, right associativity).

(** A call fails when it raises; a non-finite array is still returned.
    [raises] is only stated of calls whose outcome the model determines. *)
Definition raises {A : Type} (r : result A) : Prop :=
  exists e, r = Raise e.

(** Division of numpy floats: zero divisor gives inf or nan. *)
Definition np_div (x y : R) : result R :=
  if Req_dec_T y 0 then NonFinite else Ret (x / y).

(** Division of Python floats: zero divisor raises. *)
Definition py_div (x y : R) : result R :=
  if Req_dec_T y 0 then Raise ZeroDivisionError else Ret (x / y).

(** [np.sqrt]: nan below zero. *)
Definition np_sqrt (x : R) : result R :=
  if Rlt_dec x 0 then NonFinite else Ret (sqrt x).

(** ** Vectors and matrices of size three *)

Record vec : Type := V3 { v0 : R; v1 : R; v2 : R }.

Record mat : Type := M3 { row0 : vec; row1 : vec; row2 : vec }.

Definition m00 (m : mat) : R := v0 (row0 m).
Definition m01 (m : mat) : R := v1 (row0 m).
Definition m02 (m : mat) : R := v2 (row0 m).
Definition m10 (m : mat) : R := v0 (row1 m).
Definition m11 (m : mat) : R := v1 (row1 m).
Definition m12 (m : mat) : R := v2 (row1 m).
Definition m20 (m : mat) : R := v0 (row2 m).
Definition m21 (m : mat) : R := v1 (row2 m).
Definition m22 (m : mat) : R := v2 (row2 m).

Definition vzero : vec := V3 0 0 0.

Definition identity : mat := M3 (V3 1 0 0) (V3 0 1 0) (V3 0 0 1).

Definition vscale (k : R) (v : vec) : vec :=
  V3 (k * v0 v) (k * v1 v) (k * v2 v).

Definition mscale (k : R) (m : mat) : mat :=
  M3 (vscale k (row0 m)) (vscale k (row1 m)) (vscale k (row2 m)).

Definition inner (u v : vec) : R :=
  v0 u * v0 v + v1 u * v1 v + v2 u * v2 v.

(** [np.linalg.norm] of a vector. *)
Definition norm (v : vec) : R := sqrt (inner v v).

(** [np.cross]. *)
Definition cross (u v : vec) : vec :=
  V3 (v1 u * v2 v - v2 u * v1 v)
     (v2 u * v0 v - v0 u * v2 v)
     (v0 u * v1 v - v1 u * v0 v).

(** An array divided by a scalar, entry by entry. *)
Definition vdiv (v : vec) (s : R) : result vec :=
  if Req_dec_T s 0 then NonFinite
  else Ret (V3 (v0 v / s) (v1 v / s) (v2 v / s)).

(** [np.stack([r0, r1, r2])]: the vectors become the rows. *)
Definition stack (r0 r1 r2 : vec) : mat := M3 r0 r1 r2.

Definition col0 (m : mat) : vec := V3 (m00 m) (m10 m) (m20 m).
Definition col1 (m : mat) : vec := V3 (m01 m) (m11 m) (m21 m).
Definition col2 (m : mat) : vec := V3 (m02 m) (m12 m) (m22 m).

(** [m.T]. *)
Definition transpose (m : mat) : mat := M3 (col0 m) (col1 m) (col2 m).

(** [np.dot(m, v)] for a matrix and a vector. *)
Definition dot (m : mat) (v : vec) : vec :=
  V3 (inner (row0 m) v) (inner (row1 m) v) (inner (row2 m) v).

(** [np.matmul]. *)
Definition matmul (a b : mat) : mat :=
  M3 (V3 (inner (row0 a) (col0 b)) (inner (row0 a) (col1 b)) (inner (row0 a) (col2 b)))
     (V3 (inner (row1 a) (col0 b)) (inner (row1 a) (col1 b)) (inner (row1 a) (col2 b)))
     (V3 (inner (row2 a) (col0 b)) (inner (row2 a) (col1 b)) (inner (row2 a) (col2 b))).

Definition det (m : mat) : R :=
  inner (row0 m) (cross (row1 m) (row2 m)).

(** The transposed matrix of cofactors. *)
Definition adjugate (m : mat) : mat :=
  transpose (M3 (cross (row1 m) (row2 m))
                (cross (row2 m) (row0 m))
                (cross (row0 m) (row1 m))).

Definition is_zero (x : R) : bool :=
  if Req_dec_T x 0 then true else false.

Definition vec_is_zero (v : vec) : bool :=
  is_zero (v0 v) && is_zero (v1 v) && is_zero (v2 v).

(** A row or a column of the matrix is zero. *)
Definition has_zero_line (m : mat) : bool :=
  vec_is_zero (row0 m) || vec_is_zero (row1 m) || vec_is_zero (row2 m)
  || vec_is_zero (row0 (transpose m)) || vec_is_zero (row1 (transpose m))
  || vec_is_zero (row2 (transpose m)).

(** [np.linalg.inv], which calls LAPACK's [gesv]: an LU factorisation with
    partial pivoting, and [LinAlgError] when a pivot is exactly zero.
    A row or a column of zeros stays zero under the elimination, whatever
    the rounding, so that a zero pivot is met and the call raises.  A
    matrix with a determinant other than zero has its inverse returned.
    In between, on a singular matrix with no zero line, the pivots are
    differences of rounded products and the outcome is [Undetermined]. *)
Definition inv (m : mat) : result mat :=
  if has_zero_line m then Raise LinAlgError
  else if Req_dec_T (det m) 0 then Undetermined
  else Ret (mscale (/ det m) (adjugate m)).

(** ** The module [trigonometry] *)

Module trigonometry.

(** Modelled from the spec: the module [trigonometry], from which the
    notebook imports [sin], [cos] and [arccos], is not among the sources.
    The spec fixes angles in degrees at the interface, converted to
    radians inside. *)
Definition deg2rad (x : R) : R := x * PI / 180.

(** Modelled from the spec: radians back to degrees. *)
Definition rad2deg (x : R) : R := x * 180 / PI.

(** Modelled from the spec: the sine of an angle in degrees. *)
Definition sin (x : R) : R := Rtrigo_def.sin (deg2rad x).

(** Modelled from the spec: the cosine of an angle in degrees. *)
Definition cos (x : R) : R := Rtrigo_def.cos (deg2rad x).

(** Modelled from the spec: the arccosine, in degrees; outside of
    [-1, 1] it is nan, as numpy's. *)
Definition arccos (x : R) : result R :=
  if Rlt_dec x (-1) then NonFinite
  else if Rlt_dec 1 x then NonFinite
  else Ret (rad2deg (acos x)).

End trigonometry.

(** ** Unit cell and reciprocal cell *)

(** Lattice constants and angles (degrees), of the direct cell or of the
    reciprocal one. *)
Record cell : Type := Cell {
  len_a : R; len_b : R; len_c : R;
  ang_alpha : R; ang_beta : R; ang_gamma : R
}.

(** The metric tensor [M]. *)
Definition M (u : cell) : mat :=
  let a := len_a u in let b := len_b u in let c := len_c u in
  let alpha := ang_alpha u in let beta := ang_beta u in
  let gamma := ang_gamma u in
  M3 (V3 (a ^ 2) (a * b * trigonometry.cos gamma) (a * c * trigonometry.cos beta))
     (V3 (a * b * trigonometry.cos gamma) (b ^ 2) (b * c * trigonometry.cos alpha))
     (V3 (a * c * trigonometry.cos beta) (b * c * trigonometry.cos alpha) (c ^ 2)).

(** [Minv = (2*np.pi)**2*np.linalg.inv(M)]. *)
Definition Minv (u : cell) : result mat :=
  Mi <- inv (M u) ;;
  Ret (mscale ((2 * PI) ^ 2) Mi).

(** The reciprocal constants [a_star .. gamma_star], in the order of the
    notebook. *)
Definition reciprocal (u : cell) : result cell :=
  Mi <- Minv u ;;
  a_star <- np_sqrt (m00 Mi) ;;
  b_star <- np_sqrt (m11 Mi) ;;
  c_star <- np_sqrt (m22 Mi) ;;
  alpha_star <- (x <- np_div (m12 Mi) (b_star * c_star) ;; trigonometry.arccos x) ;;
  beta_star <- (x <- np_div (m02 Mi) (a_star * c_star) ;; trigonometry.arccos x) ;;
  gamma_star <- (x <- np_div (m01 Mi) (a_star * b_star) ;; trigonometry.arccos x) ;;
  Ret (Cell a_star b_star c_star alpha_star beta_star gamma_star).

(** ** Angles to Cartesian *)

(** An angular position [(two_theta, theta, chi, phi)]. *)
Definition position : Type := (R * R * R * R)%type.

Definition q_carterian_unit_vector (omega chi phi : R) : vec :=
  V3 (trigonometry.cos omega * trigonometry.cos chi * trigonometry.cos phi
      - trigonometry.sin omega * trigonometry.sin phi)
     (trigonometry.cos omega * trigonometry.cos chi * trigonometry.sin phi
      + trigonometry.sin omega * trigonometry.cos phi)
     (trigonometry.cos omega * trigonometry.sin chi).

Definition angles2cart (tth th chi phi lam : R) : result vec :=
  let omega := th - tth / 2 in
  vdiv (vscale (4 * PI * trigonometry.sin (tth / 2))
               (q_carterian_unit_vector omega chi phi))
       lam.

(** [angles2cart] applied to the four angles of a position. *)
Definition angles2cart_at (p : position) (lam : R) : result vec :=
  let '(tth, th, chi, phi) := p in angles2cart tth th chi phi lam.

(** ** The matrix B *)

(** [u] is the direct cell (its [alpha] and [c] are used), [r] the
    reciprocal one.  [2*np.pi/c] divides two Python floats. *)
Definition B (u r : cell) : result mat :=
  let a_star := len_a r in let b_star := len_b r in let c_star := len_c r in
  let beta_star := ang_beta r in let gamma_star := ang_gamma r in
  let alpha := ang_alpha u in let c := len_c u in
  b22 <- py_div (2 * PI) c ;;
  Ret (M3 (V3 a_star (b_star * trigonometry.cos gamma_star)
                     (c_star * trigonometry.cos beta_star))
          (V3 0 (b_star * trigonometry.sin gamma_star)
                (- c_star * trigonometry.sin beta_star * trigonometry.cos alpha))
          (V3 0 0 b22)).

(** ** Triad and orientation matrix *)

Definition get_T_mat (vec1 vec2 : vec) : result mat :=
  t1 <- vdiv vec1 (norm vec1) ;;
  let cr := cross vec1 vec2 in
  t3 <- vdiv cr (norm cr) ;;
  let t2 := cross t3 t1 in
  let T := transpose (stack t1 t2 t3) in
  Ret T.

Definition get_U (position_1 : position) (assignment_1 : vec)
                 (position_2 : position) (assignment_2 : vec)
                 (Bm : mat) (lam : R) : result mat :=
  q1 <- angles2cart_at position_1 lam ;;
  q2 <- angles2cart_at position_2 lam ;;
  T_pos <- get_T_mat q1 q2 ;;
  T_ass <- get_T_mat (dot Bm assignment_1) (dot Bm assignment_2) ;;
  let U := matmul T_pos (transpose T_ass) in
  Ret U.

(** ** Indexer *)

Definition get_HKL (p : position) (invUB : mat) (lam : R) : result vec :=
  q <- angles2cart_at p lam ;;
  Ret (dot invUB q).

(** ** The run of the notebook *)

(** The wavelength, the unit cell ([a], [b], [c], [alpha], [beta],
    [gamma]) and the two reflections of the notebook. *)
Definition lam : R := 12398 / 10000.

Definition unit_cell : cell :=
  Cell (5811 / 1000) (1007 / 100) (6628 / 1000) 90 (1007 / 10) 90.

Definition position_1 : position := (44758 / 1000, 22379 / 1000, 90, 0).
Definition position_2 : position := (558185 / 10000, 147355 / 10000, 90, 0).

Definition assignment_1 : vec := V3 0 0 4.
Definition assignment_2 : vec := V3 (-1) 0 5.

(** The matrix [B] of the notebook, from the reciprocal constants. *)
Definition notebook_B : result mat :=
  r <- reciprocal unit_cell ;; B unit_cell r.

(** [U], [UB] and [invUB] as the notebook builds them. *)
Definition notebook_invUB : result mat :=
  Bm <- notebook_B ;;
  U <- get_U position_1 assignment_1 position_2 assignment_2 Bm lam ;;
  let UB := matmul U Bm in
  inv UB.

(** ** Notions used by the properties *)

(** A matrix is orthogonal when its columns are orthonormal. *)
Definition orthogonal (a : mat) : Prop :=
  matmul (transpose a) a = identity.

(** A proper rotation. *)
Definition rotation (a : mat) : Prop :=
  orthogonal a /\ det a = 1.

(** The vector scaled to length one, as [v / np.linalg.norm(v)] gives it
    for a nonzero [v]. *)
Definition normalized (v : vec) : vec := vscale (/ norm v) v.

(** The matrix that [get_T_mat] returns when both norms are nonzero. *)
Definition triad (vec1 vec2 : vec) : mat :=
  let t1 := normalized vec1 in
  let t3 := normalized (cross vec1 vec2) in
  transpose (stack t1 (cross t3 t1) t3).

(** Two vectors are parallel when one is zero or their cross product is. *)
Definition parallel (vec1 vec2 : vec) : Prop :=
  vec1 = vzero \/ vec2 = vzero \/ cross vec1 vec2 = vzero.

Definition nonparallel (vec1 vec2 : vec) : Prop :=
  vec1 <> vzero /\ vec2 <> vzero /\ cross vec1 vec2 <> vzero.

(** Positive definite: the quadratic form is positive away from zero. *)
Definition pos_def (m : mat) : Prop :=
  forall x : vec, x <> vzero -> 0 < inner x (dot m x).

Definition symmetric (m : mat) : Prop := transpose m = m.

(** The cell read off a symmetric matrix [N] as the notebook reads the
    reciprocal cell off [Minv]. *)
Definition cell_of (N : mat) : cell :=
  let a_star := sqrt (m00 N) in
  let b_star := sqrt (m11 N) in
  let c_star := sqrt (m22 N) in
  Cell a_star b_star c_star
       (trigonometry.rad2deg (acos (m12 N / (b_star * c_star))))
       (trigonometry.rad2deg (acos (m02 N / (a_star * c_star))))
       (trigonometry.rad2deg (acos (m01 N / (a_star * b_star)))).

(** What makes the square roots and the arccosines of a cell well defined. *)
Definition gram_like (N : mat) : Prop :=
  symmetric N
  /\ 0 < m00 N /\ 0 < m11 N /\ 0 < m22 N
  /\ m12 N * m12 N <= m11 N * m22 N
  /\ m02 N * m02 N <= m00 N * m22 N
  /\ m01 N * m01 N <= m00 N * m11 N.

(** A valid unit cell. *)
Definition valid_cell (u : cell) : Prop :=
  0 < len_a u /\ 0 < len_b u /\ 0 < len_c u
  /\ 0 < ang_alpha u < 180 /\ 0 < ang_beta u < 180 /\ 0 < ang_gamma u < 180
  /\ pos_def (M u).

Definition vadd (u v : vec) : vec :=
  V3 (v0 u + v0 v) (v1 u + v1 v) (v2 u + v2 v).

(** The indices that [invUB] gives to the second measured vector are
    [second_lambda] times the first assignment plus [second_mu] times the
    second one. *)
Definition second_mu (q1 q2 c1 c2 : vec) : R :=
  norm (cross q1 q2) * norm c1 / (norm q1 * norm (cross c1 c2)).

Definition second_lambda (q1 q2 c1 c2 : vec) : R :=
  inner q1 q2 / (norm q1 * norm c1)
  - second_mu q1 q2 c1 c2 * inner c1 c2 / (norm c1 * norm c1).

(** The scaled inverse metric tensor of a monoclinic cell
    ([alpha = gamma = 90]). *)
Definition monoclinic_N (a b c beta : R) : mat :=
  let s := trigonometry.sin beta in
  let x := trigonometry.cos beta in
  let A := 2 * PI / (a * s) in
  let Bs := 2 * PI / b in
  let Cs := 2 * PI / (c * s) in
  M3 (V3 (A * A) 0 (- x * (A * Cs)))
     (V3 0 (Bs * Bs) 0)
     (V3 (- x * (A * Cs)) 0 (Cs * Cs)).

(** The matrix [B] of a monoclinic cell, with [P] for [2 * PI] and [s],
    [x] for the sine and the cosine of [beta]; and two vectors measured in
    the plane [chi = 90], [phi = 0]. *)
Definition plane_B (P a b c s x : R) : mat :=
  M3 (V3 (P / (a * s)) 0 (- x * (P / (c * s))))
     (V3 0 (P / b) 0)
     (V3 0 0 (P / c)).

Definition plane_q1 (n1 : R) : vec := V3 0 0 n1.

Definition plane_q2 (n2 so co : R) : vec := V3 0 (- (n2 * so)) (n2 * co).

(** Every component of [u] within [tol] of that of [v]. *)
Definition within (tol : R) (u v : vec) : Prop :=
  Rabs (v0 u - v0 v) < tol
  /\ Rabs (v1 u - v1 v) < tol
  /\ Rabs (v2 u - v2 v) < tol.

(** ** Rotations about the axes *)

(** The rotation by an angle in degrees about the third axis, which takes
    the first axis towards the second, and the one about the second axis,
    which takes the first axis towards the third. *)
Definition rot_axis3 (angle : R) : mat :=
  M3 (V3 (trigonometry.cos angle) (- trigonometry.sin angle) 0)
     (V3 (trigonometry.sin angle) (trigonometry.cos angle) 0)
     (V3 0 0 1).

Definition rot_axis2 (angle : R) : mat :=
  M3 (V3 (trigonometry.cos angle) 0 (- trigonometry.sin angle))
     (V3 0 1 0)
     (V3 (trigonometry.sin angle) 0 (trigonometry.cos angle)).

(** Half turns about the first and about the second axis. *)
Definition flip23 : mat := M3 (V3 1 0 0) (V3 0 (-1) 0) (V3 0 0 (-1)).

Definition flip13 : mat := M3 (V3 (-1) 0 0) (V3 0 1 0) (V3 0 0 (-1)).

(** * Properties *)

(** ** Algebra of vectors and matrices *)

Lemma vec_ext (u v : vec) :
  v0 u = v0 v -> v1 u = v1 v -> v2 u = v2 v -> u = v.
Proof. destruct u, v; simpl; intros -> -> ->; reflexivity. Qed.

Lemma mat_ext (a b : mat) :
  row0 a = row0 b -> row1 a = row1 b -> row2 a = row2 b -> a = b.
Proof. destruct a, b; simpl; intros -> -> ->; reflexivity. Qed.

Ltac unfold_linalg :=
  cbv [matmul dot transpose adjugate det mscale stack col0 col1 col2
       identity vzero m00 m01 m02 m10 m11 m12 m20 m21 m22
       cross vscale inner v0 v1 v2 row0 row1 row2] in *.

Ltac unfold_linalg_goal :=
  cbv [matmul dot transpose adjugate det mscale stack col0 col1 col2
       identity vzero m00 m01 m02 m10 m11 m12 m20 m21 m22
       cross vscale inner v0 v1 v2 row0 row1 row2].

Ltac by_entries :=
  repeat (first [ apply mat_ext | apply vec_ext ]); simpl.

Lemma inner_self_nonneg (v : vec) : 0 <= inner v v.
Proof. unfold inner; nra. Qed.

Lemma inner_self_zero (v : vec) : inner v v = 0 -> v = vzero.
Proof.
  destruct v as [x y z]; unfold inner, vzero; simpl; intros H.
  assert (x = 0) by nra. assert (y = 0) by nra. assert (z = 0) by nra.
  subst; reflexivity.
Qed.

Lemma norm_nonneg (v : vec) : 0 <= norm v.
Proof. apply sqrt_pos. Qed.

Lemma norm_sqr (v : vec) : norm v * norm v = inner v v.
Proof. apply sqrt_sqrt, inner_self_nonneg. Qed.

Lemma norm_zero_iff (v : vec) : norm v = 0 <-> v = vzero.
Proof.
  split.
  - intros H. apply inner_self_zero. rewrite <- norm_sqr, H. ring.
  - intros ->. unfold norm, inner, vzero; simpl.
    replace (0 * 0 + 0 * 0 + 0 * 0) with 0 by ring. apply sqrt_0.
Qed.

Lemma norm_pos (v : vec) : v <> vzero -> 0 < norm v.
Proof.
  intros H. destruct (norm_nonneg v) as [Hlt | Heq]; [exact Hlt |].
  exfalso. apply H, norm_zero_iff. symmetry; exact Heq.
Qed.

Lemma norm_vscale (k : R) (v : vec) : norm (vscale k v) = Rabs k * norm v.
Proof.
  unfold norm.
  replace (inner (vscale k v) (vscale k v)) with (Rsqr k * inner v v)
    by (unfold inner, vscale, Rsqr; simpl; ring).
  rewrite sqrt_mult_alt by apply Rle_0_sqr.
  rewrite sqrt_Rsqr_abs. reflexivity.
Qed.

Lemma vdiv_ret (v : vec) (s : R) :
  s <> 0 -> vdiv v s = Ret (vscale (/ s) v).
Proof.
  intros Hs. unfold vdiv. destruct (Req_dec_T s 0) as [E | _]; [contradiction |].
  f_equal. by_entries; unfold Rdiv; ring.
Qed.

Lemma vdiv_zero (v : vec) : vdiv v 0 = NonFinite.
Proof.
  unfold vdiv. destruct (Req_dec_T 0 0) as [_ | N]; [reflexivity | contradiction N; reflexivity].
Qed.

(** ** Degrees *)

Lemma sin2_cos2_deg (x : R) :
  trigonometry.sin x * trigonometry.sin x
  + trigonometry.cos x * trigonometry.cos x = 1.
Proof.
  unfold trigonometry.sin, trigonometry.cos.
  generalize (sin2_cos2 (trigonometry.deg2rad x)). unfold Rsqr. tauto.
Qed.

Lemma sin_deg_0 : trigonometry.sin 0 = 0.
Proof.
  unfold trigonometry.sin, trigonometry.deg2rad.
  replace (0 * PI / 180) with 0 by (unfold Rdiv; ring). apply sin_0.
Qed.

Lemma cos_deg_0 : trigonometry.cos 0 = 1.
Proof.
  unfold trigonometry.cos, trigonometry.deg2rad.
  replace (0 * PI / 180) with 0 by (unfold Rdiv; ring). apply cos_0.
Qed.

Lemma sin_deg_90 : trigonometry.sin 90 = 1.
Proof.
  unfold trigonometry.sin, trigonometry.deg2rad.
  replace (90 * PI / 180) with (PI / 2) by field. apply sin_PI2.
Qed.

Lemma cos_deg_90 : trigonometry.cos 90 = 0.
Proof.
  unfold trigonometry.cos, trigonometry.deg2rad.
  replace (90 * PI / 180) with (PI / 2) by field. apply cos_PI2.
Qed.

Lemma sin_deg_neg (x : R) : trigonometry.sin (- x) = - trigonometry.sin x.
Proof.
  unfold trigonometry.sin, trigonometry.deg2rad.
  replace (- x * PI / 180) with (- (x * PI / 180)) by field. apply sin_neg.
Qed.

(** ** Kinematics *)

Lemma unit_vector_inner (omega chi phi : R) :
  inner (q_carterian_unit_vector omega chi phi)
        (q_carterian_unit_vector omega chi phi) = 1.
Proof.
  unfold q_carterian_unit_vector, inner; simpl.
  generalize (sin2_cos2_deg omega) (sin2_cos2_deg chi) (sin2_cos2_deg phi).
  generalize (trigonometry.sin omega) (trigonometry.cos omega)
             (trigonometry.sin chi) (trigonometry.cos chi)
             (trigonometry.sin phi) (trigonometry.cos phi).
  intros so co sc cc sp cp Ho Hc Hp.
  replace (_ + _ + _) with
    (co * co * (cc * cc * (sp * sp + cp * cp) + sc * sc)
     + so * so * (sp * sp + cp * cp)) by ring.
  rewrite Hp, Rmult_1_r, (Rplus_comm (cc * cc)), Hc, !Rmult_1_r.
  lra.
Qed.

Lemma unit_vector_norm (omega chi phi : R) :
  norm (q_carterian_unit_vector omega chi phi) = 1.
Proof. unfold norm. rewrite unit_vector_inner. apply sqrt_1. Qed.

Lemma angles2cart_ret (tth th chi phi lam : R) :
  lam <> 0 ->
  angles2cart tth th chi phi lam =
  Ret (vscale (4 * PI * trigonometry.sin (tth / 2) / lam)
              (q_carterian_unit_vector (th - tth / 2) chi phi)).
Proof.
  intros Hl. unfold angles2cart. rewrite vdiv_ret by exact Hl.
  f_equal. by_entries; unfold vscale; simpl; field; exact Hl.
Qed.

(** C3, as stated, fails where [sin (two_theta / 2) / lam] is negative:
    at [two_theta = -180] and [lam = 1] the vector has norm [4 * PI],
    not [- 4 * PI]. *)
Lemma angles2cart_norm_signed_fails :
  exists q, angles2cart (-180) 0 0 0 1 = Ret q
            /\ norm q <> 4 * PI * trigonometry.sin (-180 / 2) / 1.
Proof.
  eexists. split.
  - apply angles2cart_ret. lra.
  - rewrite norm_vscale, unit_vector_norm.
    replace (-180 / 2) with (Ropp 90) by field.
    rewrite sin_deg_neg, sin_deg_90.
    intros H.
    pose proof (Rabs_pos (4 * PI * - (1) / 1)) as Hp.
    pose proof PI_RGT_0. lra.
Qed.

(** C3 (amended): for a nonzero wavelength the vector returned by
    [angles2cart] has norm [|4 * PI * sin (two_theta / 2) / lam|], whatever
    theta, chi and phi; the unit vector inside has norm 1 for all angles. *)
Theorem angles2cart_norm (tth th chi phi lam : R) :
  lam <> 0 ->
  (exists q, angles2cart tth th chi phi lam = Ret q
             /\ norm q = Rabs (4 * PI * trigonometry.sin (tth / 2) / lam))
  /\ norm (q_carterian_unit_vector (th - tth / 2) chi phi) = 1.
Proof.
  intros Hl. split.
  - eexists. split; [apply angles2cart_ret; exact Hl |].
    rewrite norm_vscale, unit_vector_norm. ring.
  - apply unit_vector_norm.
Qed.

Lemma angles2cart_norm_witness :
  1 <> 0
  /\ (exists q, angles2cart 90 45 30 10 1 = Ret q
                /\ norm q = Rabs (4 * PI * trigonometry.sin (90 / 2) / 1))
  /\ norm (q_carterian_unit_vector (45 - 90 / 2) 30 10) = 1.
Proof.
  split; [lra | apply (angles2cart_norm 90 45 30 10 1); lra].
Defined.

(** C9: at [two_theta = 0] and a nonzero wavelength [angles2cart] returns
    the zero vector whatever theta, chi and phi, and [get_HKL] maps such a
    position to [(0, 0, 0)] for every matrix [invUB]. *)
Theorem angles2cart_zero_two_theta (th chi phi lam : R) :
  lam <> 0 ->
  angles2cart 0 th chi phi lam = Ret vzero
  /\ forall invUB : mat, get_HKL (0, th, chi, phi) invUB lam = Ret vzero.
Proof.
  intros Hl.
  assert (E : angles2cart 0 th chi phi lam = Ret vzero).
  { rewrite angles2cart_ret by exact Hl. f_equal.
    replace (0 / 2) with 0 by field. rewrite sin_deg_0.
    by_entries; unfold vscale, vzero; simpl; field; exact Hl. }
  split; [exact E |].
  intros invUB. unfold get_HKL, angles2cart_at. rewrite E. simpl.
  f_equal. by_entries; unfold dot, inner, vzero; simpl; ring.
Qed.

Lemma angles2cart_zero_two_theta_witness :
  12398 / 10000 <> 0
  /\ angles2cart 0 22 90 0 (12398 / 10000) = Ret vzero
  /\ forall invUB : mat, get_HKL (0, 22, 90, 0) invUB (12398 / 10000) = Ret vzero.
Proof.
  split; [lra | apply (angles2cart_zero_two_theta 22 90 0 (12398 / 10000)); lra].
Defined.

(** ** Matrix identities *)

Lemma matmul_assoc (a b c : mat) :
  matmul (matmul a b) c = matmul a (matmul b c).
Proof. destruct a as [[] [] []], b as [[] [] []], c as [[] [] []].
  unfold_linalg. by_entries; ring. Qed.

Lemma matmul_identity_l (a : mat) : matmul identity a = a.
Proof. destruct a as [[] [] []]. unfold_linalg. by_entries; ring. Qed.

Lemma matmul_identity_r (a : mat) : matmul a identity = a.
Proof. destruct a as [[] [] []]. unfold_linalg. by_entries; ring. Qed.

Lemma transpose_involutive (a : mat) : transpose (transpose a) = a.
Proof. destruct a as [[] [] []]. reflexivity. Qed.

Lemma transpose_matmul (a b : mat) :
  transpose (matmul a b) = matmul (transpose b) (transpose a).
Proof. destruct a as [[] [] []], b as [[] [] []].
  unfold_linalg. by_entries; ring. Qed.

Lemma det_matmul (a b : mat) : det (matmul a b) = det a * det b.
Proof. destruct a as [[] [] []], b as [[] [] []]. unfold_linalg. ring. Qed.

Lemma det_transpose (a : mat) : det (transpose a) = det a.
Proof. destruct a as [[] [] []]. unfold_linalg. ring. Qed.

Lemma det_identity : det identity = 1.
Proof. unfold_linalg. ring. Qed.

Lemma det_mscale (k : R) (a : mat) : det (mscale k a) = k ^ 3 * det a.
Proof. destruct a as [[] [] []]. unfold_linalg. ring. Qed.

Lemma matmul_mscale_r (k : R) (a b : mat) :
  matmul a (mscale k b) = mscale k (matmul a b).
Proof. destruct a as [[] [] []], b as [[] [] []].
  unfold_linalg. by_entries; ring. Qed.

Lemma matmul_mscale_l (k : R) (a b : mat) :
  matmul (mscale k a) b = mscale k (matmul a b).
Proof. destruct a as [[] [] []], b as [[] [] []].
  unfold_linalg. by_entries; ring. Qed.

Lemma mscale_mscale (k l : R) (a : mat) :
  mscale k (mscale l a) = mscale (k * l) a.
Proof. destruct a as [[] [] []]. unfold_linalg. by_entries; ring. Qed.

Lemma mscale_1 (a : mat) : mscale 1 a = a.
Proof. destruct a as [[] [] []]. unfold_linalg. by_entries; ring. Qed.

Lemma matmul_adjugate_r (a : mat) :
  matmul a (adjugate a) = mscale (det a) identity.
Proof. destruct a as [[] [] []]. unfold_linalg. by_entries; ring. Qed.

Lemma matmul_adjugate_l (a : mat) :
  matmul (adjugate a) a = mscale (det a) identity.
Proof. destruct a as [[] [] []]. unfold_linalg. by_entries; ring. Qed.

Lemma dot_matmul (a b : mat) (v : vec) :
  dot (matmul a b) v = dot a (dot b v).
Proof. destruct a as [[] [] []], b as [[] [] []], v.
  unfold_linalg. by_entries; ring. Qed.

Lemma dot_vscale (a : mat) (k : R) (v : vec) :
  dot a (vscale k v) = vscale k (dot a v).
Proof. destruct a as [[] [] []], v. unfold_linalg. by_entries; ring. Qed.

Lemma dot_identity (v : vec) : dot identity v = v.
Proof. destruct v. unfold_linalg. by_entries; ring. Qed.

Lemma dot_mscale (k : R) (a : mat) (v : vec) :
  dot (mscale k a) v = vscale k (dot a v).
Proof. destruct a as [[] [] []], v. unfold_linalg. by_entries; ring. Qed.

Lemma vscale_vscale (k l : R) (v : vec) :
  vscale k (vscale l v) = vscale (k * l) v.
Proof. destruct v. unfold vscale; simpl. by_entries; ring. Qed.

Lemma vscale_1 (v : vec) : vscale 1 v = v.
Proof. destruct v. unfold vscale; simpl. by_entries; ring. Qed.

Lemma cross_vscale (s t : R) (u v : vec) :
  cross (vscale s u) (vscale t v) = vscale (s * t) (cross u v).
Proof. destruct u, v. unfold cross, vscale; simpl. by_entries; ring. Qed.


Lemma cross_zero_l (v : vec) : cross vzero v = vzero.
Proof. destruct v. unfold cross, vzero; simpl. by_entries; ring. Qed.

Lemma cross_zero_r (v : vec) : cross v vzero = vzero.
Proof. destruct v. unfold cross, vzero; simpl. by_entries; ring. Qed.

Lemma inner_cross_l (u v : vec) : inner u (cross u v) = 0.
Proof. destruct u, v. unfold cross, inner; simpl. ring. Qed.

Lemma orthogonal_det (a : mat) : orthogonal a -> det a * det a = 1.
Proof.
  intros H. rewrite <- (det_transpose a) at 1.
  rewrite <- det_matmul, H. apply det_identity.
Qed.

Lemma orthogonal_adjugate (a : mat) :
  orthogonal a -> transpose a = mscale (/ det a) (adjugate a).
Proof.
  intros H. pose proof (orthogonal_det a H) as Hd.
  assert (Hn : det a <> 0) by (intros E; rewrite E in Hd; lra).
  rewrite <- (matmul_identity_l (adjugate a)), <- H, matmul_assoc.
  rewrite matmul_adjugate_r, matmul_mscale_r, matmul_identity_r.
  rewrite mscale_mscale, Rinv_l by exact Hn.
  symmetry; apply mscale_1.
Qed.

Lemma orthogonal_transpose (a : mat) :
  orthogonal a -> matmul a (transpose a) = identity.
Proof.
  intros H. pose proof (orthogonal_det a H) as Hd.
  assert (Hn : det a <> 0) by (intros E; rewrite E in Hd; lra).
  rewrite (orthogonal_adjugate a H), matmul_mscale_r, matmul_adjugate_r.
  rewrite mscale_mscale, Rinv_l by exact Hn. apply mscale_1.
Qed.

Lemma rotation_matmul_transpose (a b : mat) :
  rotation a -> rotation b -> rotation (matmul a (transpose b)).
Proof.
  intros [Ha Da] [Hb Db]. split.
  - unfold orthogonal. rewrite transpose_matmul, transpose_involutive.
    rewrite matmul_assoc, <- (matmul_assoc (transpose a)), Ha.
    rewrite matmul_identity_l. apply orthogonal_transpose, Hb.
  - rewrite det_matmul, det_transpose, Da, Db. ring.
Qed.

(** ** The triad *)

Lemma get_T_mat_ret (vec1 vec2 : vec) :
  norm vec1 <> 0 -> norm (cross vec1 vec2) <> 0 ->
  get_T_mat vec1 vec2 = Ret (triad vec1 vec2).
Proof.
  intros H1 H3. unfold get_T_mat.
  rewrite (vdiv_ret _ _ H1). simpl.
  rewrite (vdiv_ret _ _ H3). reflexivity.
Qed.

Lemma get_T_mat_nonfinite (vec1 vec2 : vec) :
  norm vec1 = 0 \/ norm (cross vec1 vec2) = 0 ->
  get_T_mat vec1 vec2 = NonFinite.
Proof.
  intros H. unfold get_T_mat.
  destruct (Req_dec_T (norm vec1) 0) as [E1 | N1].
  - rewrite E1, vdiv_zero. reflexivity.
  - rewrite (vdiv_ret _ _ N1). simpl.
    destruct H as [E1 | E3]; [contradiction |].
    rewrite E3, vdiv_zero. reflexivity.
Qed.

Lemma inner_unit (v : vec) : norm v <> 0 -> inner (normalized v) (normalized v) = 1.
Proof.
  intros H. unfold normalized.
  replace (inner (vscale (/ norm v) v) (vscale (/ norm v) v))
    with (/ norm v * / norm v * inner v v)
    by (unfold inner, vscale; simpl; ring).
  rewrite <- norm_sqr. field. exact H.
Qed.

Lemma inner_unit_cross (u v : vec) :
  inner (normalized u) (normalized (cross u v)) = 0.
Proof.
  unfold normalized.
  replace (inner (vscale (/ norm u) u) (vscale (/ norm (cross u v)) (cross u v)))
    with (/ norm u * / norm (cross u v) * inner u (cross u v))
    by (unfold inner, vscale; simpl; ring).
  rewrite inner_cross_l. ring.
Qed.

(** Orthonormal [u] and [w] complete to a right-handed triad. *)
Lemma triad_rotation (u w : vec) :
  inner u u = 1 -> inner w w = 1 -> inner u w = 0 ->
  rotation (transpose (stack u (cross w u) w)).
Proof.
  destruct u as [a b c], w as [d e f]. unfold inner; simpl.
  intros Hu Hw Huw. split.
  - unfold orthogonal. unfold_linalg. by_entries; try ring; try lra.
    replace (_ + _ + _) with
      ((d * d + e * e + f * f) * (a * a + b * b + c * c)
       - (a * d + b * e + c * f) * (a * d + b * e + c * f)) by ring.
    rewrite Hu, Hw, Huw. ring.
  - unfold_linalg.
    replace (_ + _ + _) with
      ((d * d + e * e + f * f) * (a * a + b * b + c * c)
       - (a * d + b * e + c * f) * (a * d + b * e + c * f)) by ring.
    rewrite Hu, Hw, Huw. ring.
Qed.

Lemma norm_neq0 (v : vec) : v <> vzero -> norm v <> 0.
Proof. intros H E. apply H, norm_zero_iff, E. Qed.

Lemma triad_is_rotation (vec1 vec2 : vec) :
  norm vec1 <> 0 -> norm (cross vec1 vec2) <> 0 ->
  rotation (triad vec1 vec2).
Proof.
  intros H1 H3. unfold triad. apply triad_rotation.
  - apply inner_unit, H1.
  - apply inner_unit, H3.
  - apply inner_unit_cross.
Qed.

Lemma get_T_mat_cases (vec1 vec2 : vec) :
  get_T_mat vec1 vec2 = Ret (triad vec1 vec2)
  \/ get_T_mat vec1 vec2 = NonFinite.
Proof.
  destruct (Req_dec_T (norm vec1) 0) as [E1 | N1].
  - right. apply get_T_mat_nonfinite. left; exact E1.
  - destruct (Req_dec_T (norm (cross vec1 vec2)) 0) as [E3 | N3].
    + right. apply get_T_mat_nonfinite. right; exact E3.
    + left. apply get_T_mat_ret; assumption.
Qed.

Lemma parallel_cross (vec1 vec2 : vec) :
  parallel vec1 vec2 -> cross vec1 vec2 = vzero.
Proof.
  intros [-> | [-> | H]];
    [apply cross_zero_l | apply cross_zero_r | exact H].
Qed.

Lemma get_T_mat_parallel (vec1 vec2 : vec) :
  parallel vec1 vec2 -> get_T_mat vec1 vec2 = NonFinite.
Proof.
  intros H. apply get_T_mat_nonfinite. right.
  apply norm_zero_iff, parallel_cross, H.
Qed.

Lemma get_T_mat_nonparallel (vec1 vec2 : vec) :
  nonparallel vec1 vec2 -> get_T_mat vec1 vec2 = Ret (triad vec1 vec2).
Proof.
  intros (H1 & _ & H3). apply get_T_mat_ret; apply norm_neq0; assumption.
Qed.

(** The triad sends the first axis to the direction of [vec1], and its
    transpose sends [vec1] to the first axis. *)
Lemma triad_transpose_first (vec1 vec2 : vec) :
  norm vec1 <> 0 ->
  dot (transpose (triad vec1 vec2)) vec1 = V3 (norm vec1) 0 0.
Proof.
  intros H1. unfold triad. rewrite transpose_involutive.
  unfold stack, dot; simpl.
  pose proof (norm_sqr vec1) as Hn.
  assert (E1 : inner (normalized vec1) vec1 = norm vec1).
  { unfold normalized. replace (inner (vscale (/ norm vec1) vec1) vec1)
      with (/ norm vec1 * inner vec1 vec1)
      by (unfold inner, vscale; simpl; ring).
    rewrite <- Hn. field. exact H1. }
  assert (E3 : inner (normalized (cross vec1 vec2)) vec1 = 0).
  { unfold normalized.
    replace (inner (vscale (/ norm (cross vec1 vec2)) (cross vec1 vec2)) vec1)
      with (/ norm (cross vec1 vec2) * inner vec1 (cross vec1 vec2))
      by (unfold inner, vscale; simpl; ring).
    rewrite inner_cross_l. ring. }
  assert (E2 : inner (cross (normalized (cross vec1 vec2)) (normalized vec1)) vec1 = 0).
  { unfold normalized at 2.
    generalize (normalized (cross vec1 vec2)) (/ norm vec1). intros w k.
    destruct w, vec1. unfold inner, cross, vscale; simpl. ring. }
  rewrite E1, E2, E3. reflexivity.
Qed.

Lemma triad_first_axis (vec1 vec2 : vec) (x : R) :
  dot (triad vec1 vec2) (V3 x 0 0) = vscale (x / norm vec1) vec1.
Proof.
  unfold triad, normalized.
  generalize (cross (vscale (/ norm (cross vec1 vec2)) (cross vec1 vec2))
                    (vscale (/ norm vec1) vec1)).
  generalize (vscale (/ norm (cross vec1 vec2)) (cross vec1 vec2)).
  intros w w'. destruct vec1, w, w'.
  unfold_linalg. by_entries; unfold Rdiv; ring.
Qed.

(** C5: for [v1], [v2] of nonzero norm and nonzero cross product,
    [get_T_mat] returns a matrix [T] with orthonormal columns,
    [T^t T = I], and determinant [+1]. *)
Theorem get_T_mat_orthonormal (vec1 vec2 : vec) :
  norm vec1 <> 0 -> norm vec2 <> 0 -> cross vec1 vec2 <> vzero ->
  exists T, get_T_mat vec1 vec2 = Ret T
            /\ matmul (transpose T) T = identity
            /\ det T = 1.
Proof.
  intros H1 _ H3. exists (triad vec1 vec2).
  pose proof (norm_neq0 _ H3) as Hc.
  split; [apply get_T_mat_ret; assumption |].
  apply (triad_is_rotation vec1 vec2 H1 Hc).
Qed.

Lemma V3_neq_zero (x y z : R) :
  x <> 0 \/ y <> 0 \/ z <> 0 -> V3 x y z <> vzero.
Proof.
  intros H E. unfold vzero in E. injection E as -> -> ->.
  destruct H as [H | [H | H]]; apply H; reflexivity.
Qed.

Lemma get_T_mat_orthonormal_witness :
  exists T, get_T_mat (V3 1 0 0) (V3 1 1 0) = Ret T
            /\ matmul (transpose T) T = identity
            /\ det T = 1.
Proof.
  apply (get_T_mat_orthonormal (V3 1 0 0) (V3 1 1 0)).
  - apply norm_neq0, V3_neq_zero. left; lra.
  - apply norm_neq0, V3_neq_zero. left; lra.
  - unfold cross; simpl. apply V3_neq_zero. right; right; lra.
Defined.

(** ** The orientation matrix *)

Lemma get_U_ret (p1 p2 : position) (a1 a2 : vec) (Bm : mat) (lam : R)
      (q1 q2 : vec) :
  angles2cart_at p1 lam = Ret q1 ->
  angles2cart_at p2 lam = Ret q2 ->
  nonparallel q1 q2 ->
  nonparallel (dot Bm a1) (dot Bm a2) ->
  get_U p1 a1 p2 a2 Bm lam =
  Ret (matmul (triad q1 q2)
              (transpose (triad (dot Bm a1) (dot Bm a2)))).
Proof.
  intros E1 E2 Hq Hc. unfold get_U. rewrite E1, E2. simpl.
  rewrite (get_T_mat_nonparallel _ _ Hq). simpl.
  rewrite (get_T_mat_nonparallel _ _ Hc). reflexivity.
Qed.

Lemma nonparallel_triad_rotation (vec1 vec2 : vec) :
  nonparallel vec1 vec2 -> rotation (triad vec1 vec2).
Proof.
  intros (H1 & _ & H3). apply triad_is_rotation; apply norm_neq0; assumption.
Qed.

(** Two simple reflections: at [lam = 1] the positions
    [(180, 90, 90, 0)] and [(180, 90, 0, 0)] are measured along the third
    and along the first axis. *)
Lemma angles2cart_axis3 :
  angles2cart_at (180, 90, 90, 0) 1 = Ret (V3 0 0 (4 * PI)).
Proof.
  unfold angles2cart_at. rewrite angles2cart_ret by lra.
  unfold q_carterian_unit_vector.
  replace (90 - 180 / 2) with 0 by field.
  replace (180 / 2) with 90 by field.
  rewrite sin_deg_90, sin_deg_0, cos_deg_0, cos_deg_90.
  f_equal. by_entries; unfold vscale; simpl; field.
Qed.

Lemma angles2cart_axis1 :
  angles2cart_at (180, 90, 0, 0) 1 = Ret (V3 (4 * PI) 0 0).
Proof.
  unfold angles2cart_at. rewrite angles2cart_ret by lra.
  unfold q_carterian_unit_vector.
  replace (90 - 180 / 2) with 0 by field.
  replace (180 / 2) with 90 by field.
  rewrite sin_deg_90, sin_deg_0, cos_deg_0.
  f_equal. by_entries; unfold vscale; simpl; field.
Qed.

Lemma axes_nonparallel (x z : R) :
  x <> 0 -> z <> 0 -> nonparallel (V3 0 0 z) (V3 x 0 0).
Proof.
  intros Hx Hz. repeat split.
  - apply V3_neq_zero. right; right; exact Hz.
  - apply V3_neq_zero. left; exact Hx.
  - unfold cross; simpl. apply V3_neq_zero. right; left.
    intros E. ring_simplify in E.
    destruct (Rmult_integral _ _ E); contradiction.
Qed.

Lemma dot_identity_axes_nonparallel :
  nonparallel (dot identity (V3 0 0 1)) (dot identity (V3 1 0 0)).
Proof. rewrite !dot_identity. apply axes_nonparallel; lra. Qed.

Lemma four_PI_neq0 : 4 * PI <> 0.
Proof. pose proof PI_RGT_0. lra. Qed.

(** C6: on a well-posed input (measured vectors and assigned vectors both
    nonzero and non-parallel) [get_U] returns a proper rotation:
    [U^t U = I] and [det U = +1]. *)
Theorem get_U_proper_rotation
        (p1 p2 : position) (a1 a2 : vec) (Bm : mat) (lam : R) (q1 q2 : vec) :
  angles2cart_at p1 lam = Ret q1 ->
  angles2cart_at p2 lam = Ret q2 ->
  nonparallel q1 q2 ->
  nonparallel (dot Bm a1) (dot Bm a2) ->
  exists U, get_U p1 a1 p2 a2 Bm lam = Ret U
            /\ matmul (transpose U) U = identity
            /\ det U = 1.
Proof.
  intros E1 E2 Hq Hc. eexists.
  split; [apply (get_U_ret _ _ _ _ _ _ _ _ E1 E2 Hq Hc) |].
  apply rotation_matmul_transpose; apply nonparallel_triad_rotation; assumption.
Qed.

Lemma get_U_proper_rotation_witness :
  exists U, get_U (180, 90, 90, 0) (V3 0 0 1) (180, 90, 0, 0) (V3 1 0 0)
                  identity 1 = Ret U
            /\ matmul (transpose U) U = identity
            /\ det U = 1.
Proof.
  apply (get_U_proper_rotation (180, 90, 90, 0) (180, 90, 0, 0)
           (V3 0 0 1) (V3 1 0 0) identity 1 (V3 0 0 (4 * PI)) (V3 (4 * PI) 0 0)).
  - exact angles2cart_axis3.
  - exact angles2cart_axis1.
  - apply axes_nonparallel; exact four_PI_neq0.
  - exact dot_identity_axes_nonparallel.
Defined.

(** C2: when the measured vectors [q1], [q2] are non-parallel and the
    assigned vectors [c1 = B a1], [c2 = B a2] are non-parallel, the matrix
    [U] of [get_U] sends [c1] to a positive multiple of [q1]. *)
Theorem get_U_first_reflection
        (p1 p2 : position) (a1 a2 : vec) (Bm : mat) (lam : R) (q1 q2 : vec) :
  angles2cart_at p1 lam = Ret q1 ->
  angles2cart_at p2 lam = Ret q2 ->
  nonparallel q1 q2 ->
  nonparallel (dot Bm a1) (dot Bm a2) ->
  exists U k, get_U p1 a1 p2 a2 Bm lam = Ret U
              /\ 0 < k
              /\ dot U (dot Bm a1) = vscale k q1.
Proof.
  intros E1 E2 Hq Hc.
  exists (matmul (triad q1 q2) (transpose (triad (dot Bm a1) (dot Bm a2)))).
  exists (norm (dot Bm a1) / norm q1).
  destruct Hq as (Hq1 & Hq2 & Hq3). destruct Hc as (Hc1 & Hc2 & Hc3).
  split; [apply (get_U_ret _ _ _ _ _ _ _ _ E1 E2); repeat split; assumption |].
  split.
  - apply Rdiv_lt_0_compat; apply norm_pos; assumption.
  - rewrite dot_matmul, triad_transpose_first by (apply norm_neq0; exact Hc1).
    apply triad_first_axis.
Qed.

Lemma get_U_first_reflection_witness :
  exists U k, get_U (180, 90, 90, 0) (V3 0 0 1) (180, 90, 0, 0) (V3 1 0 0)
                    identity 1 = Ret U
              /\ 0 < k
              /\ dot U (dot identity (V3 0 0 1)) = vscale k (V3 0 0 (4 * PI)).
Proof.
  apply (get_U_first_reflection (180, 90, 90, 0) (180, 90, 0, 0)
           (V3 0 0 1) (V3 1 0 0) identity 1 (V3 0 0 (4 * PI)) (V3 (4 * PI) 0 0)).
  - exact angles2cart_axis3.
  - exact angles2cart_axis1.
  - apply axes_nonparallel; exact four_PI_neq0.
  - exact dot_identity_axes_nonparallel.
Defined.

(** ** Rescaling *)

Lemma norm_vscale_pos (k : R) (v : vec) :
  0 < k -> norm (vscale k v) = k * norm v.
Proof. intros Hk. rewrite norm_vscale, Rabs_pos_eq by lra. reflexivity. Qed.

Lemma vdiv_norm_vscale (k : R) (v : vec) :
  0 < k -> vdiv (vscale k v) (norm (vscale k v)) = vdiv v (norm v).
Proof.
  intros Hk. rewrite norm_vscale_pos by exact Hk.
  destruct (Req_dec_T (norm v) 0) as [E | N].
  - rewrite E, Rmult_0_r, !vdiv_zero. reflexivity.
  - rewrite !vdiv_ret by (try apply Rmult_integral_contrapositive_currified; lra).
    f_equal. rewrite vscale_vscale. f_equal. field. split; lra.
Qed.

Lemma get_T_mat_vscale (s t : R) (vec1 vec2 : vec) :
  0 < s -> 0 < t ->
  get_T_mat (vscale s vec1) (vscale t vec2) = get_T_mat vec1 vec2.
Proof.
  intros Hs Ht. unfold get_T_mat.
  rewrite (vdiv_norm_vscale s vec1 Hs), cross_vscale.
  rewrite (vdiv_norm_vscale (s * t) (cross vec1 vec2)) by nra.
  reflexivity.
Qed.

Lemma angles2cart_at_rescale (p : position) (k lam : R) :
  0 < k ->
  angles2cart_at p (k * lam) =
  q <- angles2cart_at p lam ;; Ret (vscale (/ k) q).
Proof.
  intros Hk. destruct p as [[[tth th] chi] phi]. unfold angles2cart_at, angles2cart.
  destruct (Req_dec_T lam 0) as [E | N].
  - rewrite E, Rmult_0_r, vdiv_zero. reflexivity.
  - rewrite !vdiv_ret by (try apply Rmult_integral_contrapositive_currified; lra).
    simpl. f_equal. rewrite !vscale_vscale. f_equal. field. split; lra.
Qed.

(** C10: [get_T_mat] does not change when its inputs are rescaled by
    positive factors, and so [get_U] depends on the directions only: two
    calls whose measured vectors and whose assigned vectors differ by
    positive factors give the same result. *)
Theorem get_T_mat_scale_invariant (vec1 vec2 : vec) (s t : R) :
  norm vec1 <> 0 -> norm vec2 <> 0 -> cross vec1 vec2 <> vzero ->
  0 < s -> 0 < t ->
  (exists T, get_T_mat vec1 vec2 = Ret T
             /\ get_T_mat (vscale s vec1) (vscale t vec2) = Ret T)
  /\ forall (p1 p2 p1' p2' : position) (a1 a2 a1' a2' : vec)
            (Bm Bm' : mat) (lam0 lam0' : R) (q1 q2 : vec) (s' t' : R),
       0 < s' -> 0 < t' ->
       angles2cart_at p1 lam0 = Ret q1 ->
       angles2cart_at p2 lam0 = Ret q2 ->
       angles2cart_at p1' lam0' = Ret (vscale s q1) ->
       angles2cart_at p2' lam0' = Ret (vscale t q2) ->
       dot Bm' a1' = vscale s' (dot Bm a1) ->
       dot Bm' a2' = vscale t' (dot Bm a2) ->
       get_U p1' a1' p2' a2' Bm' lam0' = get_U p1 a1 p2 a2 Bm lam0.
Proof.
  intros H1 _ H3 Hs Ht. split.
  - exists (triad vec1 vec2).
    rewrite (get_T_mat_vscale s t vec1 vec2 Hs Ht).
    split; (apply get_T_mat_ret; [exact H1 | apply norm_neq0; exact H3]).
  - intros p1 p2 p1' p2' a1 a2 a1' a2' Bm Bm' lam0 lam0' q1 q2 s' t'
           Hs' Ht' E1 E2 E1' E2' Ec1 Ec2.
    unfold get_U. rewrite E1, E2, E1', E2', Ec1, Ec2. simpl.
    rewrite (get_T_mat_vscale s t _ _ Hs Ht).
    rewrite (get_T_mat_vscale s' t' _ _ Hs' Ht').
    reflexivity.
Qed.

Lemma get_T_mat_scale_invariant_witness :
  (exists T, get_T_mat (V3 1 0 0) (V3 1 1 0) = Ret T
             /\ get_T_mat (vscale 2 (V3 1 0 0)) (vscale 3 (V3 1 1 0)) = Ret T)
  /\ forall (p1 p2 p1' p2' : position) (a1 a2 a1' a2' : vec)
            (Bm Bm' : mat) (lam0 lam0' : R) (q1 q2 : vec) (s' t' : R),
       0 < s' -> 0 < t' ->
       angles2cart_at p1 lam0 = Ret q1 ->
       angles2cart_at p2 lam0 = Ret q2 ->
       angles2cart_at p1' lam0' = Ret (vscale 2 q1) ->
       angles2cart_at p2' lam0' = Ret (vscale 3 q2) ->
       dot Bm' a1' = vscale s' (dot Bm a1) ->
       dot Bm' a2' = vscale t' (dot Bm a2) ->
       get_U p1' a1' p2' a2' Bm' lam0' = get_U p1 a1 p2 a2 Bm lam0.
Proof.
  apply (get_T_mat_scale_invariant (V3 1 0 0) (V3 1 1 0) 2 3).
  - apply norm_neq0, V3_neq_zero. left; lra.
  - apply norm_neq0, V3_neq_zero. left; lra.
  - unfold cross; simpl. apply V3_neq_zero. right; right; lra.
  - lra.
  - lra.
Defined.

(** ** Parallel reflections *)

Lemma lam_neq0 : lam <> 0.
Proof. unfold lam. lra. Qed.

Lemma raises_NonFinite (A : Type) : ~ raises (@NonFinite A).
Proof. intros [e H]. discriminate H. Qed.

Lemma raises_Ret (A : Type) (x : A) : ~ raises (Ret x).
Proof. intros [e H]. discriminate H. Qed.




(** ** The reciprocal cell *)

Lemma M_symmetric (u : cell) : symmetric (M u).
Proof. reflexivity. Qed.

Lemma pos_def_det (m : mat) : symmetric m -> pos_def m -> 0 < det m.
Proof.
  destruct m as [[p q r] [q' s t] [r' t' w]]. unfold symmetric.
  intros E H. cbv in E.
  assert (Eq : q' = q /\ r' = r /\ t' = t)
    by (injection E; intros; repeat split; congruence).
  clear E. destruct Eq as (-> & -> & ->).
  assert (Hp : 0 < p).
  { pose proof (H (V3 1 0 0)) as H0. unfold_linalg.
    assert (N : V3 1 0 0 <> V3 0 0 0) by (apply V3_neq_zero; left; lra).
    specialize (H0 N). lra. }
  assert (Hm : 0 < p * s - q * q).
  { pose proof (H (V3 (- q) p 0)) as H0. unfold_linalg.
    assert (N : V3 (- q) p 0 <> V3 0 0 0) by (apply V3_neq_zero; right; left; lra).
    specialize (H0 N).
    replace (_ + _ + _) with (p * (p * s - q * q)) in H0 by ring.
    nra. }
  pose proof (H (V3 (q * t - r * s) (q * r - p * t) (p * s - q * q))) as H0.
  unfold_linalg.
  assert (N : V3 (q * t - r * s) (q * r - p * t) (p * s - q * q) <> V3 0 0 0)
    by (apply V3_neq_zero; right; right; lra).
  specialize (H0 N).
  replace (_ + _ + _) with
    ((p * s - q * q) * (p * (s * w - t * t) + q * (t * r - q * w) + r * (q * t - s * r)))
    in H0 by ring.
  nra.
Qed.

Lemma is_zero_true (x : R) : is_zero x = true -> x = 0.
Proof. unfold is_zero. destruct (Req_dec_T x 0); [trivial | discriminate]. Qed.

Lemma vec_is_zero_true (v : vec) : vec_is_zero v = true -> v = vzero.
Proof.
  destruct v as [x y z]. unfold vec_is_zero; simpl. intros H.
  apply andb_prop in H. destruct H as [H Hz].
  apply andb_prop in H. destruct H as [Hx Hy].
  apply is_zero_true in Hx, Hy, Hz. subst. reflexivity.
Qed.

Lemma vec_is_zero_vzero : vec_is_zero vzero = true.
Proof.
  unfold vec_is_zero, is_zero, vzero; simpl.
  destruct (Req_dec_T 0 0); [reflexivity | contradiction].
Qed.

(** A matrix with a row or a column of zeros is singular. *)
Lemma has_zero_line_det (m : mat) : has_zero_line m = true -> det m = 0.
Proof.
  destruct m as [[a b c] [d e f] [g h i]]. unfold has_zero_line. intros H.
  repeat (apply Bool.orb_prop in H; destruct H as [H | H]);
    apply vec_is_zero_true in H; cbv in H; injection H; intros; subst;
    unfold_linalg; ring.
Qed.

Lemma inv_ret (m : mat) :
  det m <> 0 -> inv m = Ret (mscale (/ det m) (adjugate m)).
Proof.
  intros H. unfold inv. destruct (has_zero_line m) eqn:Z.
  - exfalso. apply H, has_zero_line_det, Z.
  - destruct (Req_dec_T (det m) 0); [contradiction | reflexivity].
Qed.

Lemma inv_zero_line (m : mat) :
  has_zero_line m = true -> inv m = Raise LinAlgError.
Proof. intros H. unfold inv. rewrite H. reflexivity. Qed.

(** What [inv] returns is the adjugate over a determinant that is not zero. *)
Lemma inv_returns (m mi : mat) :
  inv m = Ret mi -> det m <> 0 /\ mi = mscale (/ det m) (adjugate m).
Proof.
  unfold inv. destruct (has_zero_line m); [discriminate |].
  destruct (Req_dec_T (det m) 0) as [E | N]; [discriminate |].
  intros H. injection H as <-. split; [exact N | reflexivity].
Qed.

Lemma adjugate_mscale (k : R) (m : mat) :
  adjugate (mscale k m) = mscale (k * k) (adjugate m).
Proof. destruct m as [[] [] []]. unfold_linalg. by_entries; ring. Qed.

Lemma adjugate_adjugate (m : mat) :
  adjugate (adjugate m) = mscale (det m) m.
Proof. destruct m as [[] [] []]. unfold_linalg. by_entries; ring. Qed.

Lemma det_adjugate (m : mat) : det (adjugate m) = det m * det m.
Proof. destruct m as [[] [] []]. unfold_linalg. ring. Qed.

(** Inverting [k] times the inverse gives the matrix back, divided by [k]. *)
Lemma inv_scaled_inverse (k : R) (m : mat) :
  k <> 0 -> det m <> 0 ->
  inv (mscale k (mscale (/ det m) (adjugate m))) = Ret (mscale (/ k) m).
Proof.
  intros Hk Hd. rewrite mscale_mscale.
  set (c := k * / det m).
  assert (Hc : c <> 0).
  { unfold c. apply Rmult_integral_contrapositive_currified;
      [exact Hk | apply Rinv_neq_0_compat, Hd]. }
  assert (Hdet : det (mscale c (adjugate m)) = c ^ 3 * (det m * det m))
    by (rewrite det_mscale, det_adjugate; reflexivity).
  rewrite inv_ret.
  - f_equal. rewrite Hdet, adjugate_mscale, adjugate_adjugate, !mscale_mscale.
    f_equal. unfold c. field. split; assumption.
  - rewrite Hdet. apply Rmult_integral_contrapositive_currified.
    + apply pow_nonzero, Hc.
    + apply Rmult_integral_contrapositive_currified; exact Hd.
Qed.

Lemma np_sqrt_ret (x : R) : 0 <= x -> np_sqrt x = Ret (sqrt x).
Proof.
  intros H. unfold np_sqrt. destruct (Rlt_dec x 0); [lra | reflexivity].
Qed.

Lemma np_sqrt_neg (x : R) : x < 0 -> np_sqrt x = NonFinite.
Proof.
  intros H. unfold np_sqrt. destruct (Rlt_dec x 0); [reflexivity | lra].
Qed.

Lemma np_div_ret (x y : R) : y <> 0 -> np_div x y = Ret (x / y).
Proof.
  intros H. unfold np_div. destruct (Req_dec_T y 0); [contradiction | reflexivity].
Qed.

Lemma arccos_ret (x : R) :
  -1 <= x <= 1 ->
  trigonometry.arccos x = Ret (trigonometry.rad2deg (acos x)).
Proof.
  intros [H1 H2]. unfold trigonometry.arccos.
  destruct (Rlt_dec x (-1)); [lra |].
  destruct (Rlt_dec 1 x); [lra | reflexivity].
Qed.

Lemma deg2rad_rad2deg (x : R) :
  trigonometry.deg2rad (trigonometry.rad2deg x) = x.
Proof.
  unfold trigonometry.deg2rad, trigonometry.rad2deg. field. apply PI_neq0.
Qed.

Lemma rad2deg_deg2rad (x : R) :
  trigonometry.rad2deg (trigonometry.deg2rad x) = x.
Proof.
  unfold trigonometry.deg2rad, trigonometry.rad2deg. field. apply PI_neq0.
Qed.

Lemma cos_deg_arccos (x : R) :
  -1 <= x <= 1 -> trigonometry.cos (trigonometry.rad2deg (acos x)) = x.
Proof.
  intros H. unfold trigonometry.cos. rewrite deg2rad_rad2deg.
  apply cos_acos, H.
Qed.

Lemma arccos_cos_deg (x : R) :
  0 <= x <= 180 ->
  trigonometry.arccos (trigonometry.cos x) = Ret x.
Proof.
  intros [H0 H1]. rewrite arccos_ret.
  - unfold trigonometry.cos. rewrite acos_cos.
    + rewrite rad2deg_deg2rad. reflexivity.
    + unfold trigonometry.deg2rad. pose proof PI_RGT_0. split; nra.
  - unfold trigonometry.cos. pose proof (COS_bound (trigonometry.deg2rad x)). lra.
Qed.

Lemma cos_deg_sqr_lt_1 (x : R) :
  0 < x < 180 -> trigonometry.cos x * trigonometry.cos x < 1.
Proof.
  intros [H0 H1]. pose proof (sin2_cos2_deg x) as H.
  assert (Hs : 0 < trigonometry.sin x).
  { unfold trigonometry.sin, trigonometry.deg2rad. pose proof PI_RGT_0.
    apply sin_gt_0; nra. }
  nra.
Qed.

Lemma ratio_bound (x p q : R) :
  0 < p -> 0 < q -> x * x <= p * q ->
  -1 <= x / (sqrt p * sqrt q) <= 1.
Proof.
  intros Hp Hq Hx.
  pose proof (sqrt_lt_R0 p Hp) as Sp. pose proof (sqrt_lt_R0 q Hq) as Sq.
  pose proof (sqrt_sqrt p (Rlt_le _ _ Hp)) as Ep.
  pose proof (sqrt_sqrt q (Rlt_le _ _ Hq)) as Eq.
  set (s := sqrt p * sqrt q) in *.
  assert (Hs : 0 < s) by (unfold s; nra).
  assert (Es : s * s = p * q) by (unfold s; nra).
  assert (Hx1 : x <= s) by nra.
  assert (Hx2 : - s <= x) by nra.
  split.
  - apply Rmult_le_reg_r with s; [exact Hs |].
    unfold Rdiv. rewrite Rmult_assoc, Rinv_l by lra. lra.
  - apply Rmult_le_reg_r with s; [exact Hs |].
    unfold Rdiv. rewrite Rmult_assoc, Rinv_l by lra. lra.
Qed.

Lemma reciprocal_of_Minv (u : cell) (N : mat) :
  Minv u = Ret N -> gram_like N -> reciprocal u = Ret (cell_of N).
Proof.
  intros E (_ & H0 & H1 & H2 & H12 & H02 & H01).
  unfold reciprocal. rewrite E. simpl.
  rewrite !np_sqrt_ret by lra. simpl.
  pose proof (sqrt_lt_R0 _ H0). pose proof (sqrt_lt_R0 _ H1).
  pose proof (sqrt_lt_R0 _ H2).
  rewrite !np_div_ret by nra. simpl.
  rewrite !arccos_ret by (apply ratio_bound; assumption).
  reflexivity.
Qed.

Lemma M_cell_of (N : mat) : gram_like N -> M (cell_of N) = N.
Proof.
  intros (S & H0 & H1 & H2 & H12 & H02 & H01).
  pose proof (sqrt_lt_R0 _ H0) as S0. pose proof (sqrt_lt_R0 _ H1) as S1.
  pose proof (sqrt_lt_R0 _ H2) as S2.
  pose proof (sqrt_sqrt _ (Rlt_le _ _ H0)) as E0.
  pose proof (sqrt_sqrt _ (Rlt_le _ _ H1)) as E1.
  pose proof (sqrt_sqrt _ (Rlt_le _ _ H2)) as E2.
  unfold M, cell_of; simpl.
  rewrite !cos_deg_arccos by (apply ratio_bound; assumption).
  destruct N as [[p q r] [q' s t] [r' t' w]]. unfold symmetric in S. cbv in S.
  assert (Eq : q' = q /\ r' = r /\ t' = t)
    by (injection S; intros; repeat split; congruence).
  clear S. destruct Eq as (-> & -> & ->).
  unfold m00, m01, m02, m11, m12, m22 in *; simpl in *.
  revert S0 S1 S2 E0 E1 E2.
  generalize (sqrt p) (sqrt s) (sqrt w). intros sp ss sw S0 S1 S2 E0 E1 E2.
  by_entries; first [lra | field; lra].
Qed.

Lemma four_PI_sqr_pos : 0 < (2 * PI) ^ 2.
Proof. pose proof PI_RGT_0. nra. Qed.

Lemma Minv_ret (u : cell) :
  det (M u) <> 0 ->
  Minv u = Ret (mscale ((2 * PI) ^ 2) (mscale (/ det (M u)) (adjugate (M u)))).
Proof. intros H. unfold Minv. rewrite (inv_ret _ H). reflexivity. Qed.

Lemma M_gram_like (u : cell) :
  0 < len_a u -> 0 < len_b u -> 0 < len_c u -> gram_like (M u).
Proof.
  destruct u as [a b c al be ga]; simpl. intros Ha Hb Hc.
  pose proof (sin2_cos2_deg al). pose proof (sin2_cos2_deg be).
  pose proof (sin2_cos2_deg ga).
  assert (Hab : 0 < a * b) by nra. assert (Hac : 0 < a * c) by nra.
  assert (Hbc : 0 < b * c) by nra.
  unfold gram_like, M, m00, m01, m02, m11, m12, m22; simpl.
  split; [reflexivity |].
  split; [nra | split; [nra | split; [nra |]]].
  split; [| split].
  - replace (b * c * trigonometry.cos al * (b * c * trigonometry.cos al))
      with ((b * c) * (b * c) * (trigonometry.cos al * trigonometry.cos al)) by ring.
    replace (b * (b * 1) * (c * (c * 1))) with ((b * c) * (b * c) * 1) by ring.
    apply Rmult_le_compat_l; nra.
  - replace (a * c * trigonometry.cos be * (a * c * trigonometry.cos be))
      with ((a * c) * (a * c) * (trigonometry.cos be * trigonometry.cos be)) by ring.
    replace (a * (a * 1) * (c * (c * 1))) with ((a * c) * (a * c) * 1) by ring.
    apply Rmult_le_compat_l; nra.
  - replace (a * b * trigonometry.cos ga * (a * b * trigonometry.cos ga))
      with ((a * b) * (a * b) * (trigonometry.cos ga * trigonometry.cos ga)) by ring.
    replace (a * (a * 1) * (b * (b * 1))) with ((a * b) * (a * b) * 1) by ring.
    apply Rmult_le_compat_l; nra.
Qed.

Lemma cell_of_M (u : cell) :
  0 < len_a u -> 0 < len_b u -> 0 < len_c u ->
  0 <= ang_alpha u <= 180 -> 0 <= ang_beta u <= 180 ->
  0 <= ang_gamma u <= 180 ->
  cell_of (M u) = u.
Proof.
  destruct u as [a b c al be ga]; simpl. intros Ha Hb Hc Hal Hbe Hga.
  unfold cell_of, M, m00, m01, m02, m11, m12, m22; simpl.
  replace (a * (a * 1)) with (a ^ 2) by ring.
  replace (b * (b * 1)) with (b ^ 2) by ring.
  replace (c * (c * 1)) with (c ^ 2) by ring.
  rewrite !sqrt_pow2 by lra.
  replace (b * c * trigonometry.cos al / (b * c)) with (trigonometry.cos al)
    by (field; lra).
  replace (a * c * trigonometry.cos be / (a * c)) with (trigonometry.cos be)
    by (field; lra).
  replace (a * b * trigonometry.cos ga / (a * b)) with (trigonometry.cos ga)
    by (field; lra).
  pose proof PI_RGT_0.
  unfold trigonometry.cos.
  rewrite !acos_cos by (unfold trigonometry.deg2rad; split; nra).
  rewrite !rad2deg_deg2rad. reflexivity.
Qed.

(** The scaled inverse of the metric tensor of a valid cell is again the
    metric tensor of a cell. *)
Lemma Minv_gram_like (u : cell) :
  valid_cell u ->
  gram_like (mscale ((2 * PI) ^ 2) (mscale (/ det (M u)) (adjugate (M u)))).
Proof.
  intros (Ha & Hb & Hc & Hal & Hbe & Hga & Hpd).
  pose proof (pos_def_det _ (M_symmetric u) Hpd) as Hd.
  rewrite mscale_mscale.
  assert (Hk : 0 < (2 * PI) ^ 2 * / det (M u)).
  { apply Rmult_lt_0_compat; [apply four_PI_sqr_pos | apply Rinv_0_lt_compat, Hd]. }
  revert Hk. generalize ((2 * PI) ^ 2 * / det (M u)). intros k Hk.
  pose proof (cos_deg_sqr_lt_1 _ Hal) as Cal.
  pose proof (cos_deg_sqr_lt_1 _ Hbe) as Cbe.
  pose proof (cos_deg_sqr_lt_1 _ Hga) as Cga.
  destruct u as [a b c al be ga]; simpl in *.
  revert Hd Cal Cbe Cga.
  unfold M; simpl.
  generalize (trigonometry.cos al) (trigonometry.cos be) (trigonometry.cos ga).
  intros x y z Hd Cx Cy Cz.
  assert (Hab : 0 < a * b) by nra. assert (Hac : 0 < a * c) by nra.
  assert (Hbc : 0 < b * c) by nra.
  unfold gram_like, symmetric.
  unfold_linalg.
  split; [by_entries; ring |].
  split; [| split; [| split; [| split; [| split]]]].
  - replace (k * _) with (k * ((b * c) * (b * c) * (1 - x * x))) by ring.
    repeat apply Rmult_lt_0_compat; lra.
  - replace (k * _) with (k * ((a * c) * (a * c) * (1 - y * y))) by ring.
    repeat apply Rmult_lt_0_compat; lra.
  - replace (k * _) with (k * ((a * b) * (a * b) * (1 - z * z))) by ring.
    repeat apply Rmult_lt_0_compat; lra.
  - apply Rminus_le. match goal with |- ?l - ?r <= 0 =>
      replace (l - r) with (- (k * k * (a * a) *
        (a * (a * 1) * (b * (b * 1) * (c * (c * 1)) - b * c * x * (b * c * x))
         + a * b * z * (b * c * x * (a * c * y) - a * b * z * (c * (c * 1)))
         + a * c * y * (a * b * z * (b * c * x) - b * (b * 1) * (a * c * y)))))
      by ring end.
    assert (0 <= k * k * (a * a)) by nra. nra.
  - apply Rminus_le. match goal with |- ?l - ?r <= 0 =>
      replace (l - r) with (- (k * k * (b * b) *
        (a * (a * 1) * (b * (b * 1) * (c * (c * 1)) - b * c * x * (b * c * x))
         + a * b * z * (b * c * x * (a * c * y) - a * b * z * (c * (c * 1)))
         + a * c * y * (a * b * z * (b * c * x) - b * (b * 1) * (a * c * y)))))
      by ring end.
    assert (0 <= k * k * (b * b)) by nra. nra.
  - apply Rminus_le. match goal with |- ?l - ?r <= 0 =>
      replace (l - r) with (- (k * k * (c * c) *
        (a * (a * 1) * (b * (b * 1) * (c * (c * 1)) - b * c * x * (b * c * x))
         + a * b * z * (b * c * x * (a * c * y) - a * b * z * (c * (c * 1)))
         + a * c * y * (a * b * z * (b * c * x) - b * (b * 1) * (a * c * y)))))
      by ring end.
    assert (0 <= k * k * (c * c)) by nra. nra.
Qed.

(** C4: for a valid unit cell (positive lengths, angles strictly between 0
    and 180 degrees, positive definite metric tensor) the reciprocal-cell
    computation returns a cell, and the same computation on that cell
    returns the original [a, b, c, alpha, beta, gamma]. *)
Theorem reciprocal_round_trip (u : cell) :
  0 < len_a u -> 0 < len_b u -> 0 < len_c u ->
  0 < ang_alpha u < 180 -> 0 < ang_beta u < 180 -> 0 < ang_gamma u < 180 ->
  pos_def (M u) ->
  exists r, reciprocal u = Ret r /\ reciprocal r = Ret u.
Proof.
  intros Ha Hb Hc Hal Hbe Hga Hpd.
  assert (Hv : valid_cell u) by (repeat split; tauto).
  pose proof (pos_def_det _ (M_symmetric u) Hpd) as Hd.
  assert (Hd0 : det (M u) <> 0) by lra.
  pose proof (Minv_gram_like u Hv) as HN.
  set (N := mscale ((2 * PI) ^ 2) (mscale (/ det (M u)) (adjugate (M u)))) in *.
  exists (cell_of N). split.
  - apply reciprocal_of_Minv; [apply Minv_ret, Hd0 | exact HN].
  - replace (Ret u) with (Ret (cell_of (M u)))
      by (f_equal; apply cell_of_M; lra).
    apply reciprocal_of_Minv; [| apply M_gram_like; assumption].
    unfold Minv. rewrite (M_cell_of N HN). unfold N.
    pose proof four_PI_sqr_pos as Hk.
    rewrite inv_scaled_inverse by lra. simpl.
    rewrite mscale_mscale, Rinv_r by lra. rewrite mscale_1. reflexivity.
Qed.

Lemma pos_def_M_cubic : pos_def (M (Cell 1 1 1 90 90 90)).
Proof.
  intros [x y z] Hx. unfold M; simpl. rewrite cos_deg_90.
  unfold_linalg.
  assert (x <> 0 \/ y <> 0 \/ z <> 0).
  { destruct (Req_dec_T x 0) as [-> |]; [| tauto].
    destruct (Req_dec_T y 0) as [-> |]; [| tauto].
    destruct (Req_dec_T z 0) as [-> |]; [| tauto].
    contradiction Hx; reflexivity. }
  assert (0 <= x * x) by nra. assert (0 <= y * y) by nra.
  assert (0 <= z * z) by nra.
  assert (0 < x * x \/ 0 < y * y \/ 0 < z * z) by
    (destruct H as [H | [H | H]]; [left | right; left | right; right]; nra).
  nra.
Qed.

Lemma reciprocal_round_trip_witness :
  exists r, reciprocal (Cell 1 1 1 90 90 90) = Ret r
            /\ reciprocal r = Ret (Cell 1 1 1 90 90 90).
Proof.
  apply (reciprocal_round_trip (Cell 1 1 1 90 90 90)); simpl; try lra.
  exact pos_def_M_cubic.
Defined.

(** ** Degenerate cells *)

(** A lattice constant that is zero gives [M] a row of zeros. *)
Lemma M_zero_length (u : cell) :
  len_a u = 0 \/ len_b u = 0 \/ len_c u = 0 -> has_zero_line (M u) = true.
Proof.
  destruct u as [a b c al be ga]; simpl. unfold has_zero_line, M; simpl.
  intros [-> | [-> | ->]].
  - replace (V3 (0 * (0 * 1)) _ _) with vzero
      by (unfold vzero; f_equal; ring).
    rewrite vec_is_zero_vzero. reflexivity.
  - replace (V3 (a * 0 * _) (0 * (0 * 1)) _) with vzero
      by (unfold vzero; f_equal; ring).
    rewrite vec_is_zero_vzero, Bool.orb_true_r. reflexivity.
  - replace (V3 (a * 0 * _) (b * 0 * _) _) with vzero
      by (unfold vzero; f_equal; ring).
    rewrite vec_is_zero_vzero, Bool.orb_true_r. reflexivity.
Qed.

Lemma reciprocal_zero_length (u : cell) :
  len_a u = 0 \/ len_b u = 0 \/ len_c u = 0 ->
  reciprocal u = Raise LinAlgError.
Proof.
  intros H. unfold reciprocal, Minv.
  rewrite (inv_zero_line _ (M_zero_length _ H)). reflexivity.
Qed.

Lemma cos_deg_30 : trigonometry.cos 30 = sqrt 3 / 2.
Proof.
  unfold trigonometry.cos, trigonometry.deg2rad.
  replace (30 * PI / 180) with (PI / 6) by field. apply cos_PI6.
Qed.

Lemma cos_deg_30_sqr : trigonometry.cos 30 * trigonometry.cos 30 = 3 / 4.
Proof.
  rewrite cos_deg_30. pose proof (sqrt_sqrt 3) as H.
  replace (sqrt 3 / 2 * (sqrt 3 / 2)) with (sqrt 3 * sqrt 3 / 4) by field.
  rewrite H by lra. reflexivity.
Qed.

(** C8, as stated, fails: the cell with [a = b = c = 1], [alpha = beta = 30]
    and [gamma = 90] has a metric tensor that is not positive definite
    (its determinant is [-1/2]), and the computation raises nothing: the
    square root of a negative entry of [Minv] gives nan. *)
Lemma reciprocal_not_pos_def_returns :
  ~ pos_def (M (Cell 1 1 1 30 30 90))
  /\ reciprocal (Cell 1 1 1 30 30 90) = NonFinite
  /\ ~ raises (reciprocal (Cell 1 1 1 30 30 90)).
Proof.
  pose proof cos_deg_30_sqr as Hk.
  assert (Hd : det (M (Cell 1 1 1 30 30 90)) = - (1 / 2)).
  { unfold M; simpl. rewrite cos_deg_90. revert Hk.
    generalize (trigonometry.cos 30). intros k Hk. unfold_linalg. lra. }
  assert (E : reciprocal (Cell 1 1 1 30 30 90) = NonFinite).
  { unfold reciprocal. rewrite Minv_ret by (rewrite Hd; lra). simpl.
    rewrite np_sqrt_neg; [reflexivity |].
    rewrite Hd. unfold M; simpl. rewrite cos_deg_90. revert Hk.
    generalize (trigonometry.cos 30). intros k Hk. unfold_linalg.
    pose proof PI_RGT_0.
    assert (Hp : 0 < 2 * PI * (2 * PI * 1)) by nra.
    revert Hp. generalize (2 * PI * (2 * PI * 1)). intros P HP.
    replace (/ - (1 / 2)) with (-2) by field.
    replace (1 * (1 * 1) * (1 * (1 * 1)) - 1 * 1 * k * (1 * 1 * k))
      with (1 - k * k) by ring.
    rewrite Hk. lra. }
  split; [| split; [exact E | rewrite E; apply raises_NonFinite]].
  intros Hpd.
  pose proof (pos_def_det _ (M_symmetric _) Hpd) as H. rewrite Hd in H. lra.
Qed.

Lemma pow2_zero (x : R) : x ^ 2 = 0 -> x = 0.
Proof.
  simpl. rewrite Rmult_1_r. intros H.
  apply Rmult_integral in H. destruct H; assumption.
Qed.

(** Sylvester's criterion, for a symmetric matrix of order three. *)
Lemma pos_def_of_minors (m : mat) :
  symmetric m -> 0 < m00 m -> 0 < m00 m * m11 m - m01 m * m01 m ->
  0 < det m -> pos_def m.
Proof.
  destruct m as [[p q r] [q' s t] [r' t' w]]. unfold symmetric.
  intros E Hp Hm Hd. cbv in E.
  assert (Eq : q' = q /\ r' = r /\ t' = t)
    by (injection E; intros; repeat split; congruence).
  clear E. destruct Eq as (-> & -> & ->).
  intros [x y z] Hx. unfold_linalg.
  set (m2 := p * s - q * q) in *.
  set (d := p * (s * w - t * t) + q * (t * r - q * w) + r * (q * t - s * r)) in *.
  set (Q := x * (p * x + q * y + r * z) + y * (q * x + s * y + t * z)
            + z * (r * x + t * y + w * z)).
  assert (I : p * m2 * Q
              = m2 * (p * x + q * y + r * z) ^ 2
                + (m2 * y + (p * t - q * r) * z) ^ 2 + p * d * z ^ 2)
    by (unfold m2, d, Q; ring).
  assert (Hpm : 0 < p * m2) by (apply Rmult_lt_0_compat; assumption).
  assert (H1 : 0 <= m2 * (p * x + q * y + r * z) ^ 2)
    by (apply Rmult_le_pos; [lra | apply pow2_ge_0]).
  assert (H2 : 0 <= (m2 * y + (p * t - q * r) * z) ^ 2) by apply pow2_ge_0.
  assert (Hppd : 0 < p * d) by (apply Rmult_lt_0_compat; assumption).
  assert (H3 : 0 <= p * d * z ^ 2)
    by (apply Rmult_le_pos; [lra | apply pow2_ge_0]).
  destruct (Rle_or_lt Q 0) as [Hq | Hq]; [exfalso | exact Hq].
  assert (Hle : p * m2 * Q <= 0) by nra.
  assert (Z3 : p * d * z ^ 2 = 0) by lra.
  assert (Z2 : (m2 * y + (p * t - q * r) * z) ^ 2 = 0) by lra.
  assert (Z1 : m2 * (p * x + q * y + r * z) ^ 2 = 0) by lra.
  assert (Hz : z = 0).
  { apply Rmult_integral in Z3. destruct Z3 as [Z3 | Z3]; [lra |].
    apply pow2_zero, Z3. }
  subst z.
  assert (Hy : y = 0).
  { apply pow2_zero in Z2.
    assert (Z : m2 * y = 0) by lra.
    apply Rmult_integral in Z. destruct Z; lra. }
  subst y.
  assert (Hx0 : x = 0).
  { apply Rmult_integral in Z1. destruct Z1 as [Z1 | Z1]; [lra |].
    apply pow2_zero in Z1.
    assert (Z : p * x = 0) by lra.
    apply Rmult_integral in Z. destruct Z; lra. }
  subst x. apply Hx. reflexivity.
Qed.

(** With positive [a] and [b] and [gamma] strictly between 0 and 180
    degrees, [M] is positive definite as soon as its determinant is
    positive. *)
Lemma M_pos_def_of_det (u : cell) :
  0 < len_a u -> 0 < len_b u -> 0 < ang_gamma u < 180 ->
  0 < det (M u) -> pos_def (M u).
Proof.
  intros Ha Hb Hg Hd.
  apply pos_def_of_minors; [apply M_symmetric | | | exact Hd].
  - clear Hd. destruct u as [a b c al be ga]; simpl in *.
    unfold M; simpl. rewrite Rmult_1_r. apply Rmult_lt_0_compat; assumption.
  - clear Hd. destruct u as [a b c al be ga]; simpl in *.
    unfold M; simpl.
    pose proof (cos_deg_sqr_lt_1 ga Hg) as Hk. revert Hk.
    generalize (trigonometry.cos ga). intros k Hk. unfold_linalg_goal.
    replace (a * (a * 1) * (b * (b * 1)) - a * b * k * (a * b * k))
      with (a * a * (b * b) * (1 - k * k)) by ring.
    apply Rmult_lt_0_compat; [| lra].
    apply Rmult_lt_0_compat; apply Rmult_lt_0_compat; assumption.
Qed.

(** A cell whose [M] has a negative determinant: the first diagonal entry
    of [Minv] is negative and its square root is nan. *)
Lemma reciprocal_negative_det (u : cell) :
  0 < len_b u -> 0 < len_c u -> 0 < ang_alpha u < 180 ->
  det (M u) < 0 -> reciprocal u = NonFinite.
Proof.
  intros Hb Hc Hal Hd. unfold reciprocal.
  rewrite Minv_ret by lra. simpl.
  rewrite np_sqrt_neg; [reflexivity |].
  assert (Hi : / det (M u) < 0) by (apply Rinv_lt_0_compat; exact Hd).
  revert Hi. generalize (/ det (M u)). intros i Hi.
  clear Hd. destruct u as [a b c al be ga]; simpl in *. unfold M; simpl.
  pose proof (cos_deg_sqr_lt_1 al Hal) as Hk. revert Hk.
  generalize (trigonometry.cos al). intros k Hk.
  unfold_linalg_goal. pose proof PI_RGT_0 as HP.
  assert (Hp : 0 < 2 * PI * (2 * PI * 1)) by nra.
  revert Hp. generalize (2 * PI * (2 * PI * 1)). intros P Hp.
  replace (b * (b * 1) * (c * (c * 1)) - b * c * k * (b * c * k))
    with (b * b * (c * c) * (1 - k * k)) by ring.
  assert (Hq : 0 < b * b * (c * c) * (1 - k * k)).
  { apply Rmult_lt_0_compat; [| lra].
    apply Rmult_lt_0_compat; apply Rmult_lt_0_compat; assumption. }
  revert Hq. generalize (b * b * (c * c) * (1 - k * k)). intros q Hq.
  assert (0 < P * q) by (apply Rmult_lt_0_compat; assumption).
  replace (P * (i * q)) with (i * (P * q)) by ring. nra.
Qed.

Lemma det_M_30_30_90 : det (M (Cell 1 1 1 30 30 90)) = - (1 / 2).
Proof.
  pose proof cos_deg_30_sqr as Hk.
  unfold M; simpl. rewrite cos_deg_90. revert Hk.
  generalize (trigonometry.cos 30). intros k Hk. unfold_linalg. lra.
Qed.

Lemma not_pos_def_30_30_90 : ~ pos_def (M (Cell 1 1 1 30 30 90)).
Proof.
  intros Hpd.
  pose proof (pos_def_det _ (M_symmetric _) Hpd) as H.
  rewrite det_M_30_30_90 in H. lra.
Qed.

(** C8 (amended): the code has no check of the cell and no error of its
    own.  A lattice constant that is zero makes the inversion of [M] raise
    [LinAlgError].  A cell with positive lengths and angles strictly
    between 0 and 180 degrees whose [M] is invertible but not positive
    definite is not rejected: nothing is raised, the square root of a
    negative entry of [Minv] gives nan. *)
Theorem reciprocal_degenerate (u : cell) :
  (len_a u = 0 \/ len_b u = 0 \/ len_c u = 0 ->
   reciprocal u = Raise LinAlgError)
  /\ (0 < len_a u -> 0 < len_b u -> 0 < len_c u ->
      0 < ang_alpha u < 180 -> 0 < ang_beta u < 180 ->
      0 < ang_gamma u < 180 ->
      ~ pos_def (M u) -> det (M u) <> 0 ->
      reciprocal u = NonFinite /\ ~ raises (reciprocal u)).
Proof.
  split; [apply reciprocal_zero_length |].
  intros Ha Hb Hc Hal Hbe Hga Hn Hd.
  assert (E : reciprocal u = NonFinite).
  { apply reciprocal_negative_det; try assumption.
    destruct (Rtotal_order (det (M u)) 0) as [H | [H | H]];
      [exact H | contradiction |].
    exfalso. apply Hn. apply M_pos_def_of_det; assumption. }
  split; [exact E | rewrite E; apply raises_NonFinite].
Qed.

Lemma reciprocal_degenerate_witness :
  reciprocal (Cell 0 1 1 90 90 90) = Raise LinAlgError
  /\ reciprocal (Cell 1 1 1 30 30 90) = NonFinite
  /\ ~ raises (reciprocal (Cell 1 1 1 30 30 90)).
Proof.
  split.
  - apply (proj1 (reciprocal_degenerate (Cell 0 1 1 90 90 90))).
    simpl. left; reflexivity.
  - apply (proj2 (reciprocal_degenerate (Cell 1 1 1 30 30 90))); simpl;
      try lra.
    + apply not_pos_def_30_30_90.
    + rewrite det_M_30_30_90. lra.
Defined.

(** ** Indexing the two reflections that define U *)

Lemma dot_vadd (a : mat) (u v : vec) :
  dot a (vadd u v) = vadd (dot a u) (dot a v).
Proof. destruct a as [[] [] []], u, v. unfold vadd. unfold_linalg. by_entries; ring. Qed.

Lemma inner_cross_r (u v : vec) : inner (cross u v) v = 0.
Proof. destruct u, v. unfold cross, inner; simpl. ring. Qed.

Lemma inner_triple (w u v : vec) :
  inner (cross w u) v = inner w (cross u v).
Proof. destruct w, u, v. unfold cross, inner; simpl. ring. Qed.

Lemma inner_vscale_l (k : R) (u v : vec) :
  inner (vscale k u) v = k * inner u v.
Proof. destruct u, v. unfold inner, vscale; simpl. ring. Qed.

Lemma cross_vscale_l (k : R) (u v : vec) :
  cross (vscale k u) v = vscale k (cross u v).
Proof. destruct u, v. unfold cross, vscale; simpl. by_entries; ring. Qed.

Lemma cross_vscale_r (k : R) (u v : vec) :
  cross u (vscale k v) = vscale k (cross u v).
Proof. destruct u, v. unfold cross, vscale; simpl. by_entries; ring. Qed.

(** The coordinates of [vec2] in the triad of [vec1] and [vec2]. *)
Lemma triad_transpose_second (vec1 vec2 : vec) :
  norm vec1 <> 0 -> norm (cross vec1 vec2) <> 0 ->
  dot (transpose (triad vec1 vec2)) vec2
  = V3 (inner vec1 vec2 / norm vec1)
       (norm (cross vec1 vec2) / norm vec1) 0.
Proof.
  intros H1 H3. unfold triad. rewrite transpose_involutive.
  unfold stack, dot, normalized; simpl.
  rewrite cross_vscale_l, cross_vscale_r, !inner_vscale_l.
  rewrite inner_triple, inner_cross_r, <- norm_sqr.
  by_entries; field; try split; assumption.
Qed.

Lemma triad_transpose_triad (vec1 vec2 v : vec) :
  norm vec1 <> 0 -> norm (cross vec1 vec2) <> 0 ->
  dot (triad vec1 vec2) (dot (transpose (triad vec1 vec2)) v) = v.
Proof.
  intros H1 H3. rewrite <- dot_matmul.
  rewrite orthogonal_transpose by (apply triad_is_rotation; assumption).
  apply dot_identity.
Qed.

(** With [U] built from the measured pair and the assigned pair, the
    first assigned vector is sent onto the first measured one up to the
    ratio of their lengths, and the second measured vector is the image of
    a combination of the two assigned ones. *)
Lemma U_first (q1 q2 c1 c2 : vec) :
  nonparallel q1 q2 -> nonparallel c1 c2 ->
  dot (matmul (triad q1 q2) (transpose (triad c1 c2)))
      (vscale (norm q1 / norm c1) c1) = q1.
Proof.
  intros (Hq1 & _ & Hq3) (Hc1 & _ & Hc3).
  pose proof (norm_neq0 _ Hq1) as Nq1. pose proof (norm_neq0 _ Hc1) as Nc1.
  rewrite dot_matmul, dot_vscale, triad_transpose_first by exact Nc1.
  unfold vscale; simpl.
  replace (V3 (norm q1 / norm c1 * norm c1) (norm q1 / norm c1 * 0)
              (norm q1 / norm c1 * 0))
    with (V3 (norm q1) 0 0) by (by_entries; field; exact Nc1).
  rewrite triad_first_axis.
  replace (norm q1 / norm q1) with 1 by (field; exact Nq1).
  apply vscale_1.
Qed.

Lemma U_second (q1 q2 c1 c2 : vec) :
  nonparallel q1 q2 -> nonparallel c1 c2 ->
  dot (matmul (triad q1 q2) (transpose (triad c1 c2)))
      (vadd (vscale (second_lambda q1 q2 c1 c2) c1)
            (vscale (second_mu q1 q2 c1 c2) c2)) = q2.
Proof.
  intros (Hq1 & _ & Hq3) (Hc1 & _ & Hc3).
  pose proof (norm_neq0 _ Hq1) as Nq1. pose proof (norm_neq0 _ Hc1) as Nc1.
  pose proof (norm_neq0 _ Hq3) as Nq3. pose proof (norm_neq0 _ Hc3) as Nc3.
  rewrite dot_matmul, dot_vadd, !dot_vscale.
  rewrite triad_transpose_first, triad_transpose_second by assumption.
  match goal with |- dot _ ?v = _ =>
    assert (E : v = dot (transpose (triad q1 q2)) q2) end.
  { rewrite (triad_transpose_second q1 q2 Nq1 Nq3).
    unfold second_lambda, second_mu, vadd, vscale; simpl.
    by_entries; field; repeat split; assumption. }
  rewrite E. apply triad_transpose_triad; assumption.
Qed.

Lemma inv_solves (m x : mat) (h q : vec) :
  inv m = Ret x -> dot m h = q -> dot x q = h.
Proof.
  intros Hx <-. apply inv_returns in Hx. destruct Hx as [N ->].
  rewrite <- dot_matmul, matmul_mscale_l, matmul_adjugate_l, mscale_mscale.
  rewrite Rinv_l by exact N. rewrite mscale_1. apply dot_identity.
Qed.

(** ** The monoclinic cell *)

Lemma sin_deg_pos (x : R) : 0 < x < 180 -> 0 < trigonometry.sin x.
Proof.
  intros [H0 H1]. unfold trigonometry.sin, trigonometry.deg2rad.
  pose proof PI_RGT_0. apply sin_gt_0; nra.
Qed.

Lemma cos_deg_supplement (x : R) :
  trigonometry.cos (180 - x) = - trigonometry.cos x.
Proof.
  unfold trigonometry.cos, trigonometry.deg2rad.
  replace ((180 - x) * PI / 180) with (PI - x * PI / 180) by field.
  rewrite cos_minus, cos_PI, sin_PI. ring.
Qed.

Lemma monoclinic_Minv (a b c beta : R) :
  0 < a -> 0 < b -> 0 < c -> 0 < beta < 180 ->
  Minv (Cell a b c 90 beta 90) = Ret (monoclinic_N a b c beta).
Proof.
  intros Ha Hb Hc Hbeta.
  pose proof (sin_deg_pos beta Hbeta) as Hs.
  pose proof (sin2_cos2_deg beta) as Hsc.
  pose proof PI_RGT_0 as HPI.
  assert (Hd : det (M (Cell a b c 90 beta 90))
               = (a * b * c * trigonometry.sin beta) * (a * b * c * trigonometry.sin beta)).
  { unfold M; simpl. rewrite cos_deg_90. revert Hsc.
    generalize (trigonometry.sin beta) (trigonometry.cos beta). intros s x Hsc.
    unfold_linalg_goal.
    replace (a * b * c * s * (a * b * c * s)) with (a * a * b * b * c * c * (s * s)) by ring.
    replace (s * s) with (1 - x * x) by lra. ring. }
  assert (Hp : 0 < a * b * c * trigonometry.sin beta)
    by (repeat apply Rmult_lt_0_compat; assumption).
  rewrite Minv_ret by (rewrite Hd; apply Rgt_not_eq; nra).
  rewrite Hd. f_equal. unfold M, monoclinic_N; simpl. rewrite cos_deg_90.
  revert Hs Hsc. clear Hd Hp.
  generalize (trigonometry.sin beta) (trigonometry.cos beta). intros s x Hs Hsc.
  unfold_linalg_goal.
  by_entries; try (field; lra).
  replace (c * (c * 1) * (a * (a * 1)) - a * c * x * (a * c * x))
    with (a * a * c * c * (s * s))
    by (replace (s * s) with (1 - x * x) by lra; ring).
  field; lra.
Qed.

Lemma reciprocal_monoclinic (a b c beta : R) :
  0 < a -> 0 < b -> 0 < c -> 0 < beta < 180 ->
  reciprocal (Cell a b c 90 beta 90)
  = Ret (Cell (2 * PI / (a * trigonometry.sin beta))
              (2 * PI / b)
              (2 * PI / (c * trigonometry.sin beta))
              90 (180 - beta) 90).
Proof.
  intros Ha Hb Hc Hbeta.
  pose proof (sin_deg_pos beta Hbeta) as Hs.
  pose proof PI_RGT_0 as HPI.
  assert (Hacos : trigonometry.arccos (- trigonometry.cos beta) = Ret (180 - beta)).
  { rewrite arccos_ret.
    - rewrite acos_opp. unfold trigonometry.cos. rewrite acos_cos.
      + f_equal. unfold trigonometry.rad2deg, trigonometry.deg2rad. field. lra.
      + unfold trigonometry.deg2rad. split; nra.
    - unfold trigonometry.cos. pose proof (COS_bound (trigonometry.deg2rad beta)). lra. }
  assert (Hacos0 : trigonometry.arccos 0 = Ret 90).
  { rewrite arccos_ret by lra. rewrite acos_0. f_equal.
    unfold trigonometry.rad2deg. field. lra. }
  unfold reciprocal. rewrite monoclinic_Minv by assumption.
  unfold monoclinic_N.
  cbn [bind m00 m01 m02 m11 m12 m22 v0 v1 v2 row0 row1 row2].
  set (A := 2 * PI / (a * trigonometry.sin beta)).
  set (Bs := 2 * PI / b).
  set (Cs := 2 * PI / (c * trigonometry.sin beta)).
  assert (HA : 0 < A) by (unfold A; apply Rdiv_lt_0_compat; nra).
  assert (HB : 0 < Bs) by (unfold Bs; apply Rdiv_lt_0_compat; nra).
  assert (HC : 0 < Cs) by (unfold Cs; apply Rdiv_lt_0_compat; nra).
  rewrite !np_sqrt_ret by nra.
  cbn [bind]. rewrite !sqrt_square by lra.
  rewrite !np_div_ret by (apply Rgt_not_eq; nra).
  cbn [bind].
  replace (0 / (Bs * Cs)) with 0 by (field; lra).
  replace (0 / (A * Bs)) with 0 by (field; lra).
  replace (- trigonometry.cos beta * (A * Cs) / (A * Cs))
    with (- trigonometry.cos beta) by (field; lra).
  rewrite Hacos, Hacos0. reflexivity.
Qed.

Lemma B_monoclinic (a b c beta : R) :
  c <> 0 ->
  B (Cell a b c 90 beta 90)
    (Cell (2 * PI / (a * trigonometry.sin beta))
          (2 * PI / b)
          (2 * PI / (c * trigonometry.sin beta))
          90 (180 - beta) 90)
  = Ret (M3 (V3 (2 * PI / (a * trigonometry.sin beta)) 0
                (- trigonometry.cos beta * (2 * PI / (c * trigonometry.sin beta))))
            (V3 0 (2 * PI / b) 0)
            (V3 0 0 (2 * PI / c))).
Proof.
  intros Hc. unfold B, py_div; simpl.
  destruct (Req_dec_T c 0) as [E | _]; [contradiction |]. simpl.
  rewrite cos_deg_90, sin_deg_90, cos_deg_supplement.
  f_equal. by_entries; ring.
Qed.

(** ** Numerical bounds *)

Lemma PI_bounds : 31415926 / 10000000 < PI < 31415927 / 10000000.
Proof.
  pose proof (PI_2_3_7_ineq 4) as [Hl Hu].
  unfold sum_f_R0, tg_alt, PI_2_3_7_tg, Ratan_seq in Hl, Hu.
  simpl in Hl, Hu.
  split; lra.
Qed.

Lemma INR_fact (n : nat) : INR (fact n) = IZR (Z.of_nat (fact n)).
Proof. apply INR_IZR_INZ. Qed.

Lemma INR_fact_8 : INR (fact 8) = 40320.
Proof. rewrite INR_fact. f_equal. Qed.

Lemma INR_fact_9 : INR (fact 9) = 362880.
Proof. rewrite INR_fact. f_equal. Qed.

(** The alternating Taylor sums enclose sine and cosine. *)
Lemma sin_poly_bounds (x : R) :
  0 <= x <= PI ->
  x - x ^ 3 / 6 + x ^ 5 / 120 - x ^ 7 / 5040 <= Rtrigo_def.sin x
  <= x - x ^ 3 / 6 + x ^ 5 / 120 - x ^ 7 / 5040 + x ^ 9 / 362880.
Proof.
  intros [H0 H1]. pose proof (SIN x H0 H1) as [Hl Hu].
  unfold sin_lb, sin_ub, sin_approx, sin_term in Hl, Hu.
  cbn [sum_f_R0 Nat.mul Nat.add] in Hl, Hu.
  rewrite !INR_fact in Hl, Hu.
  change (Z.of_nat (fact 1)) with 1%Z in Hl, Hu.
  change (Z.of_nat (fact 3)) with 6%Z in Hl, Hu.
  change (Z.of_nat (fact 5)) with 120%Z in Hl, Hu.
  change (Z.of_nat (fact 7)) with 5040%Z in Hl, Hu.
  rewrite INR_fact_9 in Hu.
  split; lra.
Qed.

Lemma cos_poly_bounds (x : R) :
  - PI / 2 <= x <= PI / 2 ->
  1 - x ^ 2 / 2 + x ^ 4 / 24 - x ^ 6 / 720 <= Rtrigo_def.cos x
  <= 1 - x ^ 2 / 2 + x ^ 4 / 24 - x ^ 6 / 720 + x ^ 8 / 40320.
Proof.
  intros [H0 H1]. pose proof (COS x H0 H1) as [Hl Hu].
  unfold cos_lb, cos_ub, cos_approx, cos_term in Hl, Hu.
  cbn [sum_f_R0 Nat.mul Nat.add] in Hl, Hu.
  rewrite !INR_fact in Hl, Hu.
  change (Z.of_nat (fact 0)) with 1%Z in Hl, Hu.
  change (Z.of_nat (fact 2)) with 2%Z in Hl, Hu.
  change (Z.of_nat (fact 4)) with 24%Z in Hl, Hu.
  change (Z.of_nat (fact 6)) with 720%Z in Hl, Hu.
  rewrite INR_fact_8 in Hu.
  split; lra.
Qed.

(** Enclosure of the sine of an angle between rational bounds [lo] and
    [hi] in the first quadrant. *)
Lemma sin_enclosure (x lo hi : R) :
  0 <= lo -> lo <= x -> x <= hi -> hi <= 3 / 2 ->
  lo - lo ^ 3 / 6 + lo ^ 5 / 120 - lo ^ 7 / 5040 <= Rtrigo_def.sin x
  <= hi - hi ^ 3 / 6 + hi ^ 5 / 120 - hi ^ 7 / 5040 + hi ^ 9 / 362880.
Proof.
  intros H0 H1 H2 H3. pose proof PI_bounds as [Pl Pu].
  split.
  - apply Rle_trans with (Rtrigo_def.sin lo).
    + apply sin_poly_bounds. lra.
    + apply sin_incr_1; lra.
  - apply Rle_trans with (Rtrigo_def.sin hi).
    + apply sin_incr_1; lra.
    + apply sin_poly_bounds. lra.
Qed.

Lemma cos_enclosure (x lo hi : R) :
  0 <= lo -> lo <= x -> x <= hi -> hi <= 3 / 2 ->
  1 - hi ^ 2 / 2 + hi ^ 4 / 24 - hi ^ 6 / 720 <= Rtrigo_def.cos x
  <= 1 - lo ^ 2 / 2 + lo ^ 4 / 24 - lo ^ 6 / 720 + lo ^ 8 / 40320.
Proof.
  intros H0 H1 H2 H3. pose proof PI_bounds as [Pl Pu].
  split.
  - apply Rle_trans with (Rtrigo_def.cos hi).
    + apply cos_poly_bounds. lra.
    + apply cos_decr_1; lra.
  - apply Rle_trans with (Rtrigo_def.cos lo).
    + apply cos_decr_1; lra.
    + apply cos_poly_bounds. lra.
Qed.

Lemma sin_deg_22_379 :
  380731 / 1000000 < trigonometry.sin (44758 / 1000 / 2) < 380732 / 1000000.
Proof.
  pose proof PI_bounds as [Pl Pu].
  unfold trigonometry.sin, trigonometry.deg2rad.
  pose proof (sin_enclosure (44758 / 1000 / 2 * PI / 180)
                (3905872 / 10000000) (3905873 / 10000000)) as [L U]; lra.
Qed.

Lemma sin_deg_27_909 :
  468072 / 1000000 < trigonometry.sin (558185 / 10000 / 2) < 468073 / 1000000.
Proof.
  pose proof PI_bounds as [Pl Pu].
  unfold trigonometry.sin, trigonometry.deg2rad.
  pose proof (sin_enclosure (558185 / 10000 / 2 * PI / 180)
                (4871082 / 10000000) (4871084 / 10000000)) as [L U]; lra.
Qed.

Lemma sin_deg_13_174 :
  227904 / 1000000 < trigonometry.sin (1317375 / 100000) < 227905 / 1000000.
Proof.
  pose proof PI_bounds as [Pl Pu].
  unfold trigonometry.sin, trigonometry.deg2rad.
  pose proof (sin_enclosure (1317375 / 100000 * PI / 180)
                (2299253 / 10000000) (2299254 / 10000000)) as [L U]; lra.
Qed.

Lemma cos_deg_13_174 :
  973683 / 1000000 < trigonometry.cos (1317375 / 100000) < 973684 / 1000000.
Proof.
  pose proof PI_bounds as [Pl Pu].
  unfold trigonometry.cos, trigonometry.deg2rad.
  pose proof (cos_enclosure (1317375 / 100000 * PI / 180)
                (2299253 / 10000000) (2299254 / 10000000)) as [L U]; lra.
Qed.

Lemma sin_deg_10_7 :
  185666 / 1000000 < trigonometry.sin (107 / 10) < 185667 / 1000000.
Proof.
  pose proof PI_bounds as [Pl Pu].
  unfold trigonometry.sin, trigonometry.deg2rad.
  pose proof (sin_enclosure (107 / 10 * PI / 180)
                (1867502 / 10000000) (1867503 / 10000000)) as [L U]; lra.
Qed.

Lemma cos_deg_10_7 :
  982612 / 1000000 < trigonometry.cos (107 / 10) < 982613 / 1000000.
Proof.
  pose proof PI_bounds as [Pl Pu].
  unfold trigonometry.cos, trigonometry.deg2rad.
  pose proof (cos_enclosure (107 / 10 * PI / 180)
                (1867502 / 10000000) (1867503 / 10000000)) as [L U]; lra.
Qed.

Lemma sin_deg_quarter_plus (x : R) :
  trigonometry.sin (90 + x) = trigonometry.cos x.
Proof.
  unfold trigonometry.sin, trigonometry.cos, trigonometry.deg2rad.
  replace ((90 + x) * PI / 180) with (PI / 2 + x * PI / 180) by field.
  symmetry. apply cos_sin.
Qed.

Lemma cos_deg_quarter_plus (x : R) :
  trigonometry.cos (90 + x) = - trigonometry.sin x.
Proof.
  unfold trigonometry.sin, trigonometry.cos, trigonometry.deg2rad.
  replace ((90 + x) * PI / 180) with (PI / 2 + x * PI / 180) by field.
  rewrite (Rtrigo1.sin_cos (x * PI / 180)). ring.
Qed.

Lemma cos_deg_neg (x : R) : trigonometry.cos (- x) = trigonometry.cos x.
Proof.
  unfold trigonometry.cos, trigonometry.deg2rad.
  replace (- x * PI / 180) with (- (x * PI / 180)) by field. apply cos_neg.
Qed.

(** ** The example of the notebook *)

Lemma get_HKL_of_reflections
      (p1 p2 : position) (a1 a2 : vec) (Bm : mat) (lam0 : R) (q1 q2 : vec) :
  det Bm <> 0 ->
  angles2cart_at p1 lam0 = Ret q1 ->
  angles2cart_at p2 lam0 = Ret q2 ->
  nonparallel q1 q2 ->
  nonparallel (dot Bm a1) (dot Bm a2) ->
  exists U iUB,
    get_U p1 a1 p2 a2 Bm lam0 = Ret U
    /\ inv (matmul U Bm) = Ret iUB
    /\ get_HKL p1 iUB lam0
       = Ret (vscale (norm q1 / norm (dot Bm a1)) a1)
    /\ get_HKL p2 iUB lam0
       = Ret (vadd (vscale (second_lambda q1 q2 (dot Bm a1) (dot Bm a2)) a1)
                   (vscale (second_mu q1 q2 (dot Bm a1) (dot Bm a2)) a2)).
Proof.
  intros HB E1 E2 Hq Hc.
  set (U := matmul (triad q1 q2) (transpose (triad (dot Bm a1) (dot Bm a2)))).
  assert (HU : rotation U)
    by (apply rotation_matmul_transpose; apply nonparallel_triad_rotation; assumption).
  assert (Hd : det (matmul U Bm) <> 0).
  { rewrite det_matmul. destruct HU as [_ ->]. lra. }
  exists U, (mscale (/ det (matmul U Bm)) (adjugate (matmul U Bm))).
  pose proof (inv_ret _ Hd) as Hinv.
  split; [apply (get_U_ret _ _ _ _ _ _ _ _ E1 E2 Hq Hc) |].
  split; [exact Hinv |].
  unfold get_HKL. rewrite E1, E2. simpl. split; f_equal.
  - apply (inv_solves _ _ _ _ Hinv).
    rewrite dot_matmul, dot_vscale. apply U_first; assumption.
  - apply (inv_solves _ _ _ _ Hinv).
    rewrite dot_matmul, dot_vadd, !dot_vscale. apply U_second; assumption.
Qed.

Lemma norm_axis0 (x : R) : norm (V3 x 0 0) = Rabs x.
Proof.
  unfold norm, inner; simpl.
  replace (x * x + 0 * 0 + 0 * 0) with (Rsqr x) by (unfold Rsqr; ring).
  apply sqrt_Rsqr_abs.
Qed.

Lemma norm_axis1 (y : R) : norm (V3 0 y 0) = Rabs y.
Proof.
  unfold norm, inner; simpl.
  replace (0 * 0 + y * y + 0 * 0) with (Rsqr y) by (unfold Rsqr; ring).
  apply sqrt_Rsqr_abs.
Qed.

Lemma norm_axis2 (z : R) : norm (V3 0 0 z) = Rabs z.
Proof.
  unfold norm, inner; simpl.
  replace (0 * 0 + 0 * 0 + z * z) with (Rsqr z) by (unfold Rsqr; ring).
  apply sqrt_Rsqr_abs.
Qed.

Lemma sqrt_of_square (x y : R) : 0 <= y -> x = y * y -> sqrt x = y.
Proof. intros Hy ->. apply sqrt_square. exact Hy. Qed.

(** Reflections measured in the plane [chi = 90], [phi = 0], the first
    with [omega = 0], indexed on a monoclinic cell as [(0, 0, 4)] and
    [(-1, 0, 5)]: [P] stands for [2 * PI], [s] and [x] for the sine and
    the cosine of [beta], [n1] and [n2] for the lengths of the measured
    vectors, [so] and [co] for minus the sine and the cosine of the second
    [omega]. *)
Section PlaneGeometry.

Variables P a b c s x n1 n2 so co : R.
Hypothesis HP : 0 < P.
Hypothesis Ha : 0 < a.
Hypothesis Hb : 0 < b.
Hypothesis Hc : 0 < c.
Hypothesis Hs : 0 < s.
Hypothesis Hsx : s * s + x * x = 1.
Hypothesis Hn1 : 0 < n1.
Hypothesis Hn2 : 0 < n2.
Hypothesis Hso : 0 < so.

Lemma plane_det_B : det (plane_B P a b c s x) <> 0.
Proof.
  unfold plane_B. unfold_linalg_goal.
  replace (_ + _ + _) with (P / (a * s) * (P / b) * (P / c)) by (field; lra).
  apply Rgt_not_eq. repeat apply Rmult_lt_0_compat;
    try apply Rinv_0_lt_compat; try apply Rmult_lt_0_compat; lra.
Qed.

Lemma plane_c1 :
  dot (plane_B P a b c s x) assignment_1
  = V3 (4 * (- x * (P / (c * s)))) 0 (4 * (P / c)).
Proof. unfold plane_B, assignment_1. unfold_linalg_goal. by_entries; ring. Qed.

Lemma plane_c2 :
  dot (plane_B P a b c s x) assignment_2
  = V3 (- (P / (a * s)) + 5 * (- x * (P / (c * s)))) 0 (5 * (P / c)).
Proof. unfold plane_B, assignment_2. unfold_linalg_goal. by_entries; ring. Qed.

Lemma plane_norm_q1 : norm (plane_q1 n1) = n1.
Proof. unfold plane_q1. rewrite norm_axis2. apply Rabs_pos_eq. lra. Qed.

Lemma plane_cross_q :
  cross (plane_q1 n1) (plane_q2 n2 so co) = V3 (n1 * n2 * so) 0 0.
Proof. unfold plane_q1, plane_q2, cross; simpl. by_entries; ring. Qed.

Lemma plane_norm_cross_q :
  norm (cross (plane_q1 n1) (plane_q2 n2 so co)) = n1 * n2 * so.
Proof.
  rewrite plane_cross_q, norm_axis0. apply Rabs_pos_eq.
  apply Rlt_le. repeat apply Rmult_lt_0_compat; assumption.
Qed.

Lemma plane_inner_q :
  inner (plane_q1 n1) (plane_q2 n2 so co) = n1 * n2 * co.
Proof. unfold plane_q1, plane_q2, inner; simpl. ring. Qed.

Lemma plane_norm_c1 :
  norm (dot (plane_B P a b c s x) assignment_1) = 4 * (P / (c * s)).
Proof.
  rewrite plane_c1. unfold norm. apply sqrt_of_square.
  - apply Rlt_le. apply Rmult_lt_0_compat; [lra |].
    apply Rdiv_lt_0_compat; [lra | apply Rmult_lt_0_compat; lra].
  - unfold inner; simpl.
    replace (4 * (P / (c * s)) * (4 * (P / (c * s))))
      with (16 * (P / (c * s)) * (P / (c * s)) * (s * s + x * x))
      by (rewrite Hsx; ring).
    field. lra.
Qed.

Lemma plane_cross_c :
  cross (dot (plane_B P a b c s x) assignment_1)
        (dot (plane_B P a b c s x) assignment_2)
  = V3 0 (- (4 * (P / (a * s)) * (P / c))) 0.
Proof. rewrite plane_c1, plane_c2. unfold cross; simpl. by_entries; ring. Qed.

Lemma plane_norm_cross_c :
  norm (cross (dot (plane_B P a b c s x) assignment_1)
              (dot (plane_B P a b c s x) assignment_2))
  = 4 * (P / (a * s)) * (P / c).
Proof.
  rewrite plane_cross_c, norm_axis1, Rabs_Ropp. apply Rabs_pos_eq.
  apply Rlt_le. repeat apply Rmult_lt_0_compat;
    try apply Rinv_0_lt_compat; try apply Rmult_lt_0_compat; lra.
Qed.

Lemma plane_inner_c :
  inner (dot (plane_B P a b c s x) assignment_1)
        (dot (plane_B P a b c s x) assignment_2) =
  4 * x * (P / (c * s)) * (P / (a * s)) + 20 * (P / (c * s)) * (P / (c * s)).
Proof.
  rewrite plane_c1, plane_c2. unfold inner; simpl.
  transitivity (4 * x * (P / (c * s)) * (P / (a * s))
                + 20 * (P / (c * s)) * (P / (c * s)) * (s * s + x * x)).
  - field. lra.
  - rewrite Hsx. ring.
Qed.

Lemma plane_nonparallel_q : nonparallel (plane_q1 n1) (plane_q2 n2 so co).
Proof.
  assert (H : cross (plane_q1 n1) (plane_q2 n2 so co) <> vzero).
  { rewrite plane_cross_q. apply V3_neq_zero. left. apply Rgt_not_eq.
    repeat apply Rmult_lt_0_compat; assumption. }
  repeat split; [| | exact H].
  - intros E. apply H. rewrite E. apply cross_zero_l.
  - intros E. apply H. rewrite E. apply cross_zero_r.
Qed.

Lemma plane_nonparallel_c :
  nonparallel (dot (plane_B P a b c s x) assignment_1)
              (dot (plane_B P a b c s x) assignment_2).
Proof.
  assert (H : cross (dot (plane_B P a b c s x) assignment_1)
                    (dot (plane_B P a b c s x) assignment_2) <> vzero).
  { rewrite plane_cross_c. apply V3_neq_zero. right; left.
    apply Rlt_not_eq, Ropp_lt_gt_0_contravar.
    repeat apply Rmult_lt_0_compat;
      try apply Rinv_0_lt_compat; try apply Rmult_lt_0_compat; lra. }
  repeat split; [| | exact H].
  - intros E. apply H. rewrite E. apply cross_zero_l.
  - intros E. apply H. rewrite E. apply cross_zero_r.
Qed.

Lemma plane_first :
  norm (plane_q1 n1) / norm (dot (plane_B P a b c s x) assignment_1)
  = n1 * c * s / (4 * P).
Proof. rewrite plane_norm_q1, plane_norm_c1. field. lra. Qed.

Lemma plane_mu :
  second_mu (plane_q1 n1) (plane_q2 n2 so co)
            (dot (plane_B P a b c s x) assignment_1)
            (dot (plane_B P a b c s x) assignment_2)
  = n2 * so * a / P.
Proof.
  unfold second_mu.
  rewrite plane_norm_cross_q, plane_norm_c1, plane_norm_q1, plane_norm_cross_c.
  field. lra.
Qed.

Lemma plane_lambda :
  4 * second_lambda (plane_q1 n1) (plane_q2 n2 so co)
                    (dot (plane_B P a b c s x) assignment_1)
                    (dot (plane_B P a b c s x) assignment_2)
  + 5 * second_mu (plane_q1 n1) (plane_q2 n2 so co)
                  (dot (plane_B P a b c s x) assignment_1)
                  (dot (plane_B P a b c s x) assignment_2)
  = n2 * c * (s * co - x * so) / P.
Proof.
  unfold second_lambda. rewrite plane_mu.
  rewrite plane_inner_q, plane_norm_c1, plane_norm_q1, plane_inner_c.
  field. lra.
Qed.

End PlaneGeometry.

Lemma mult_enclosure (x y lx ux ly uy : R) :
  0 <= lx -> lx < x < ux -> 0 <= ly -> ly < y < uy ->
  lx * ly < x * y < ux * uy.
Proof. intros. split; nra. Qed.

Lemma position_1_cart :
  angles2cart_at position_1 lam
  = Ret (V3 0 0 (4 * PI * trigonometry.sin (44758 / 1000 / 2) / lam)).
Proof.
  unfold position_1, angles2cart_at. rewrite angles2cart_ret by exact lam_neq0.
  unfold q_carterian_unit_vector.
  replace (22379 / 1000 - 44758 / 1000 / 2) with 0 by field.
  rewrite sin_deg_0, cos_deg_0, cos_deg_90, sin_deg_90.
  f_equal. unfold vscale; simpl. by_entries; ring.
Qed.

Lemma position_2_cart :
  angles2cart_at position_2 lam
  = Ret (V3 0
            (- (4 * PI * trigonometry.sin (558185 / 10000 / 2) / lam
                * trigonometry.sin (1317375 / 100000)))
            (4 * PI * trigonometry.sin (558185 / 10000 / 2) / lam
             * trigonometry.cos (1317375 / 100000))).
Proof.
  unfold position_2, angles2cart_at. rewrite angles2cart_ret by exact lam_neq0.
  unfold q_carterian_unit_vector.
  replace (147355 / 10000 - 558185 / 10000 / 2)
    with (Ropp (1317375 / 100000)) by field.
  rewrite sin_deg_neg, cos_deg_neg, sin_deg_0, cos_deg_0, cos_deg_90, sin_deg_90.
  f_equal. unfold vscale; simpl. by_entries; ring.
Qed.

Lemma sin_beta_bounds :
  982612 / 1000000 < trigonometry.sin (1007 / 10) < 982613 / 1000000.
Proof.
  replace (1007 / 10) with (90 + 107 / 10) by field.
  rewrite sin_deg_quarter_plus. apply cos_deg_10_7.
Qed.

Lemma cos_beta_bounds :
  - (185667 / 1000000) < trigonometry.cos (1007 / 10) < - (185666 / 1000000).
Proof.
  replace (1007 / 10) with (90 + 107 / 10) by field.
  rewrite cos_deg_quarter_plus. pose proof sin_deg_10_7. lra.
Qed.

(** C1: for the cell [a = 5.811], [b = 10.07], [c = 6.628], [alpha = 90],
    [beta = 100.7], [gamma = 90] and [lam = 1.2398], with [B], [U], [UB] and
    [invUB] built from the two reflections of the notebook, [get_HKL] gives
    [(0, 0, 4)] back at the first position and [(-1, 0, 5)] at the second,
    each component within [1e-3]. *)
Theorem notebook_reproduces_assignments :
  exists invUB h1 h2,
    notebook_invUB = Ret invUB
    /\ get_HKL position_1 invUB lam = Ret h1
    /\ get_HKL position_2 invUB lam = Ret h2
    /\ within (1 / 1000) h1 assignment_1
    /\ within (1 / 1000) h2 assignment_2.
Proof.
  pose proof PI_RGT_0 as HPI.
  pose proof sin_beta_bounds as Hs. pose proof cos_beta_bounds as Hx.
  pose proof (sin2_cos2_deg (1007 / 10)) as Hsx.
  pose proof sin_deg_22_379 as HS1. pose proof sin_deg_27_909 as HS2.
  pose proof sin_deg_13_174 as Hso. pose proof cos_deg_13_174 as Hco.
  unfold notebook_invUB, notebook_B, unit_cell.
  rewrite reciprocal_monoclinic by lra. cbn [bind].
  rewrite B_monoclinic by lra. cbn [bind].
  set (s := trigonometry.sin (1007 / 10)) in *.
  set (x := trigonometry.cos (1007 / 10)) in *.
  set (S1 := trigonometry.sin (44758 / 1000 / 2)) in *.
  set (S2 := trigonometry.sin (558185 / 10000 / 2)) in *.
  set (so := trigonometry.sin (1317375 / 100000)) in *.
  set (co := trigonometry.cos (1317375 / 100000)) in *.
  pose proof position_1_cart as E1. pose proof position_2_cart as E2.
  fold S1 in E1. fold S2 so co in E2.
  set (n1 := 4 * PI * S1 / lam) in *.
  set (n2 := 4 * PI * S2 / lam) in *.
  assert (Hlam : 0 < lam) by (unfold lam; lra).
  assert (Hn1 : 0 < n1)
    by (unfold n1; apply Rdiv_lt_0_compat; [| exact Hlam]; nra).
  assert (Hn2 : 0 < n2)
    by (unfold n2; apply Rdiv_lt_0_compat; [| exact Hlam]; nra).
  assert (HP : 0 < 2 * PI) by lra.
  assert (Ha : 0 < 5811 / 1000) by lra.
  assert (Hb : 0 < 1007 / 100) by lra.
  assert (Hc : 0 < 6628 / 1000) by lra.
  assert (Hs0 : 0 < s) by lra.
  assert (Hso0 : 0 < so) by lra.
  match goal with |- context [get_U _ _ _ _ ?m _] => set (Bm := m) end.
  destruct (get_HKL_of_reflections position_1 position_2 assignment_1 assignment_2
              Bm lam _ _
              (plane_det_B _ _ _ _ _ _ HP Ha Hb Hc Hs0)
              E1 E2
              (plane_nonparallel_q _ _ _ _ Hn1 Hn2 Hso0)
              (plane_nonparallel_c _ _ _ _ _ _ HP Ha Hc Hs0))
    as (U & iUB & HU & Hinv & H1 & H2).
  pose proof (plane_first (2 * PI) (5811 / 1000) (1007 / 100) (6628 / 1000)
                s x n1 HP Hc Hs0 Hsx Hn1) as F1.
  pose proof (plane_mu (2 * PI) (5811 / 1000) (1007 / 100) (6628 / 1000)
                s x n1 n2 so co HP Ha Hc Hs0 Hsx Hn1 Hn2 Hso0) as Fmu.
  pose proof (plane_lambda (2 * PI) (5811 / 1000) (1007 / 100) (6628 / 1000)
                s x n1 n2 so co HP Ha Hc Hs0 Hsx Hn1 Hn2 Hso0) as Fla.
  unfold plane_B, plane_q1, plane_q2 in F1, Fmu, Fla.
  fold Bm in F1, Fmu, Fla.
  rewrite F1 in H1. clear F1.
  revert H2 Fmu Fla.
  generalize (second_lambda (V3 0 0 n1) (V3 0 (- (n2 * so)) (n2 * co))
                (dot Bm assignment_1) (dot Bm assignment_2)).
  generalize (second_mu (V3 0 0 n1) (V3 0 (- (n2 * so)) (n2 * co))
                (dot Bm assignment_1) (dot Bm assignment_2)).
  intros mu la H2 Fmu Fla.
  rewrite HU. cbn [bind].
  eexists. eexists. eexists.
  split; [exact Hinv |]. split; [exact H1 |]. split; [exact H2 |].
  assert (E1z : n1 * (6628 / 1000) * s / (4 * (2 * PI)) * 4
                = 2 * (6628 / 1000) * (s * S1) / lam).
  { unfold n1, lam. field. lra. }
  assert (Emu : mu = 2 * (5811 / 1000) * (S2 * so) / lam).
  { rewrite Fmu. unfold n2, lam. field. lra. }
  assert (Ela : la * 4 + mu * 5
                = 2 * (6628 / 1000) * (S2 * (s * co + (- x) * so)) / lam).
  { replace (la * 4 + mu * 5) with (4 * la + 5 * mu) by ring.
    rewrite Fla. unfold n2, lam. field. lra. }
  pose proof (mult_enclosure s S1 (982612 / 1000000) _ (380731 / 1000000) _
                ltac:(lra) Hs ltac:(lra) HS1) as B1.
  pose proof (mult_enclosure S2 so (468072 / 1000000) _ (227904 / 1000000) _
                ltac:(lra) HS2 ltac:(lra) Hso) as B2.
  pose proof (mult_enclosure s co (982612 / 1000000) _ (973683 / 1000000) _
                ltac:(lra) Hs ltac:(lra) Hco) as B3.
  assert (Hy : 185666 / 1000000 < - x < 185667 / 1000000) by lra.
  pose proof (mult_enclosure (- x) so (185666 / 1000000) _ (227904 / 1000000) _
                ltac:(lra) Hy ltac:(lra) Hso) as B4.
  assert (B5 : 982612 / 1000000 * (973683 / 1000000)
               + 185666 / 1000000 * (227904 / 1000000)
               < s * co + - x * so
               < 982613 / 1000000 * (973684 / 1000000)
                 + 185667 / 1000000 * (227905 / 1000000)) by lra.
  pose proof (mult_enclosure S2 (s * co + - x * so) (468072 / 1000000) _
                (982612 / 1000000 * (973683 / 1000000)
                 + 185666 / 1000000 * (227904 / 1000000)) _
                ltac:(lra) HS2 ltac:(lra) B5) as B6.
  clear Fmu Fla H1 H2 HU Hinv E1 E2.
  unfold within, assignment_1, assignment_2, vadd, vscale; simpl.
  rewrite E1z, Ela, Emu. unfold lam.
  repeat split; apply Rabs_def1; lra.
Qed.

(** * Further properties *)

(** ** Kinematics *)

Lemma sin_deg_plus (x y : R) :
  trigonometry.sin (x + y)
  = trigonometry.sin x * trigonometry.cos y + trigonometry.cos x * trigonometry.sin y.
Proof.
  unfold trigonometry.sin, trigonometry.cos, trigonometry.deg2rad.
  replace ((x + y) * PI / 180) with (x * PI / 180 + y * PI / 180) by field.
  apply sin_plus.
Qed.

Lemma cos_deg_plus (x y : R) :
  trigonometry.cos (x + y)
  = trigonometry.cos x * trigonometry.cos y - trigonometry.sin x * trigonometry.sin y.
Proof.
  unfold trigonometry.sin, trigonometry.cos, trigonometry.deg2rad.
  replace ((x + y) * PI / 180) with (x * PI / 180 + y * PI / 180) by field.
  apply cos_plus.
Qed.

Lemma rot_axis3_rotation (angle : R) : rotation (rot_axis3 angle).
Proof.
  pose proof (sin2_cos2_deg angle) as H. unfold rot_axis3. revert H.
  generalize (trigonometry.sin angle) (trigonometry.cos angle). intros s c H.
  split.
  - unfold orthogonal. unfold_linalg_goal. by_entries; try ring; lra.
  - unfold_linalg_goal. lra.
Qed.

Lemma rot_axis2_rotation (angle : R) : rotation (rot_axis2 angle).
Proof.
  pose proof (sin2_cos2_deg angle) as H. unfold rot_axis2. revert H.
  generalize (trigonometry.sin angle) (trigonometry.cos angle). intros s c H.
  split.
  - unfold orthogonal. unfold_linalg_goal. by_entries; try ring; lra.
  - unfold_linalg_goal. lra.
Qed.

(** X1: the unit vector inside [angles2cart] is the first axis turned by
    [omega] about the third axis, then by [chi] about the second axis, then
    by [phi] about the third axis, each of the three a proper rotation. *)
Theorem unit_vector_rotations (omega chi phi : R) :
  q_carterian_unit_vector omega chi phi
  = dot (rot_axis3 phi) (dot (rot_axis2 chi) (dot (rot_axis3 omega) (V3 1 0 0)))
  /\ rotation (rot_axis3 phi) /\ rotation (rot_axis2 chi)
  /\ rotation (rot_axis3 omega).
Proof.
  split; [| split; [apply rot_axis3_rotation | split;
                    [apply rot_axis2_rotation | apply rot_axis3_rotation]]].
  unfold q_carterian_unit_vector, rot_axis3, rot_axis2.
  unfold_linalg_goal. by_entries; ring.
Qed.

(** X2: adding [d] to [phi] turns the vector that [angles2cart] returns by
    [d] about the third axis; a non-finite result stays non-finite. *)
Theorem angles2cart_phi_shift (tth th chi phi d lam0 : R) :
  angles2cart tth th chi (phi + d) lam0
  = q <- angles2cart tth th chi phi lam0 ;; Ret (dot (rot_axis3 d) q).
Proof.
  unfold angles2cart. destruct (Req_dec_T lam0 0) as [-> | N].
  - rewrite !vdiv_zero. reflexivity.
  - rewrite !vdiv_ret by exact N. cbn [bind]. f_equal.
    rewrite !dot_vscale. do 2 f_equal.
    unfold q_carterian_unit_vector, rot_axis3.
    rewrite sin_deg_plus, cos_deg_plus.
    unfold_linalg_goal. by_entries; ring.
Qed.

(** X3: the vector of [angles2cart] is inversely proportional to the
    wavelength: [k * lam] instead of [lam], with [k] nonzero, divides every
    component by [k]. *)
Theorem angles2cart_wavelength (tth th chi phi lam0 k : R) :
  k <> 0 ->
  angles2cart tth th chi phi (k * lam0)
  = q <- angles2cart tth th chi phi lam0 ;; Ret (vscale (/ k) q).
Proof.
  intros Hk. unfold angles2cart. destruct (Req_dec_T lam0 0) as [-> | N].
  - rewrite Rmult_0_r, !vdiv_zero. reflexivity.
  - rewrite !vdiv_ret
      by (try apply Rmult_integral_contrapositive_currified; assumption).
    cbn [bind]. f_equal. rewrite !vscale_vscale. f_equal. field. tauto.
Qed.

Lemma angles2cart_wavelength_witness :
  angles2cart 180 90 90 0 (2 * 1)
  = q <- angles2cart 180 90 90 0 1 ;; Ret (vscale (/ 2) q).
Proof. apply (angles2cart_wavelength 180 90 90 0 1 2). lra. Defined.

(** ** The triad under other rescalings *)

Lemma cross_vadd_self (vec1 vec2 : vec) (k : R) :
  cross vec1 (vadd vec2 (vscale k vec1)) = cross vec1 vec2.
Proof. destruct vec1, vec2. unfold cross, vadd, vscale; simpl. by_entries; ring. Qed.

(** X5: [get_T_mat] sees the second vector only through its part across
    the first: adding any multiple of [vec1] to [vec2] changes nothing. *)
Theorem get_T_mat_second_along_first (vec1 vec2 : vec) (k : R) :
  get_T_mat vec1 (vadd vec2 (vscale k vec1)) = get_T_mat vec1 vec2.
Proof. unfold get_T_mat. rewrite cross_vadd_self. reflexivity. Qed.

Lemma norm_vscale_neg (k : R) (v : vec) :
  k < 0 -> norm (vscale k v) = - k * norm v.
Proof. intros Hk. rewrite norm_vscale, Rabs_left by exact Hk. reflexivity. Qed.

Lemma vdiv_norm_vscale_neg (k : R) (v : vec) :
  k < 0 ->
  vdiv (vscale k v) (norm (vscale k v))
  = w <- vdiv v (norm v) ;; Ret (vscale (-1) w).
Proof.
  intros Hk. rewrite norm_vscale_neg by exact Hk.
  destruct (Req_dec_T (norm v) 0) as [E | N].
  - rewrite E, Rmult_0_r, !vdiv_zero. reflexivity.
  - rewrite !vdiv_ret by (try apply Rmult_integral_contrapositive_currified; lra).
    cbn [bind]. f_equal. rewrite !vscale_vscale. f_equal. field. split; lra.
Qed.

Lemma get_T_mat_never_raises (vec1 vec2 : vec) : ~ raises (get_T_mat vec1 vec2).
Proof.
  destruct (get_T_mat_cases vec1 vec2) as [-> | ->];
    [apply raises_Ret | apply raises_NonFinite].
Qed.

(** X6: a negative factor on the second vector turns the triad by a half
    turn about its first axis (second and third columns change sign); a
    negative factor on the first vector turns it by a half turn about its
    second axis. *)
Theorem get_T_mat_negative_factor (vec1 vec2 : vec) (k : R) :
  k < 0 ->
  get_T_mat vec1 (vscale k vec2)
  = (T <- get_T_mat vec1 vec2 ;; Ret (matmul T flip23))
  /\ get_T_mat (vscale k vec1) vec2
     = (T <- get_T_mat vec1 vec2 ;; Ret (matmul T flip13)).
Proof.
  intros Hk. split.
  - unfold get_T_mat.
    replace (cross vec1 (vscale k vec2)) with (vscale k (cross vec1 vec2))
      by (symmetry; apply cross_vscale_r).
    rewrite (vdiv_norm_vscale_neg k _ Hk).
    destruct (vdiv vec1 (norm vec1)) as [t1 | | |]; cbn [bind]; try reflexivity.
    destruct (vdiv (cross vec1 vec2) (norm (cross vec1 vec2))) as [t3 | | |];
      cbn [bind]; try reflexivity.
    f_equal. destruct t1, t3. unfold flip23. unfold_linalg_goal. by_entries; ring.
  - unfold get_T_mat.
    replace (cross (vscale k vec1) vec2) with (vscale k (cross vec1 vec2))
      by (symmetry; apply cross_vscale_l).
    rewrite !(vdiv_norm_vscale_neg k _ Hk).
    destruct (vdiv vec1 (norm vec1)) as [t1 | | |]; cbn [bind]; try reflexivity.
    destruct (vdiv (cross vec1 vec2) (norm (cross vec1 vec2))) as [t3 | | |];
      cbn [bind]; try reflexivity.
    f_equal. destruct t1, t3. unfold flip13. unfold_linalg_goal. by_entries; ring.
Qed.

Lemma get_T_mat_negative_factor_witness :
  get_T_mat (V3 1 0 0) (vscale (-1) (V3 1 1 0))
  = (T <- get_T_mat (V3 1 0 0) (V3 1 1 0) ;; Ret (matmul T flip23))
  /\ get_T_mat (vscale (-1) (V3 1 0 0)) (V3 1 1 0)
     = (T <- get_T_mat (V3 1 0 0) (V3 1 1 0) ;; Ret (matmul T flip13)).
Proof. apply (get_T_mat_negative_factor (V3 1 0 0) (V3 1 1 0) (-1)). lra. Defined.

Lemma nonparallel_iff_cross (vec1 vec2 : vec) :
  nonparallel vec1 vec2 <-> cross vec1 vec2 <> vzero.
Proof.
  split.
  - intros (_ & _ & H). exact H.
  - intros H. repeat split; [| | exact H].
    + intros E. apply H. rewrite E. apply cross_zero_l.
    + intros E. apply H. rewrite E. apply cross_zero_r.
Qed.

Lemma get_T_mat_ret_iff (vec1 vec2 : vec) :
  (exists T, get_T_mat vec1 vec2 = Ret T) <-> cross vec1 vec2 <> vzero.
Proof.
  split.
  - intros [T E] H. rewrite get_T_mat_parallel in E; [discriminate |].
    right; right; exact H.
  - intros H. exists (triad vec1 vec2). apply get_T_mat_nonparallel.
    apply nonparallel_iff_cross, H.
Qed.




(** ** The orientation matrix and the second reflection *)

Lemma triad_transpose_normal (vec1 vec2 : vec) :
  norm (cross vec1 vec2) <> 0 ->
  dot (transpose (triad vec1 vec2)) (cross vec1 vec2)
  = V3 0 0 (norm (cross vec1 vec2)).
Proof.
  intros H3. unfold triad. rewrite transpose_involutive.
  unfold stack, dot, normalized; simpl.
  rewrite cross_vscale_l, cross_vscale_r, !inner_vscale_l.
  rewrite inner_cross_l, <- norm_sqr.
  replace (inner (cross (cross vec1 vec2) vec1) (cross vec1 vec2)) with 0
    by (destruct vec1, vec2; unfold cross, inner; simpl; ring).
  by_entries; first [ring | field; assumption].
Qed.

Lemma triad_third_axis (vec1 vec2 : vec) (x : R) :
  dot (triad vec1 vec2) (V3 0 0 x)
  = vscale (x / norm (cross vec1 vec2)) (cross vec1 vec2).
Proof.
  unfold triad, normalized.
  generalize (cross vec1 vec2). intros cr.
  generalize (vscale (/ norm vec1) vec1). intros t1.
  destruct cr, t1.
  unfold_linalg_goal. by_entries; unfold Rdiv; ring.
Qed.

Lemma inv_right (m x : mat) : inv m = Ret x -> matmul m x = identity.
Proof.
  intros Hx. apply inv_returns in Hx. destruct Hx as [N ->].
  rewrite matmul_mscale_r, matmul_adjugate_r, mscale_mscale.
  rewrite Rinv_l by exact N. apply mscale_1.
Qed.

Lemma well_posed_U (p1 p2 : position) (a1 a2 : vec) (Bm : mat) (lam0 : R)
      (q1 q2 : vec) :
  angles2cart_at p1 lam0 = Ret q1 ->
  angles2cart_at p2 lam0 = Ret q2 ->
  nonparallel q1 q2 ->
  nonparallel (dot Bm a1) (dot Bm a2) ->
  get_U p1 a1 p2 a2 Bm lam0
  = Ret (matmul (triad q1 q2) (transpose (triad (dot Bm a1) (dot Bm a2)))).
Proof. apply get_U_ret. Qed.

(** X8: [U] sends the normal [c1 x c2] of the plane of the assigned
    vectors to a positive multiple of the normal [q1 x q2] of the plane of
    the measured ones. *)
Theorem get_U_plane_normal
        (p1 p2 : position) (a1 a2 : vec) (Bm : mat) (lam0 : R) (q1 q2 : vec) :
  angles2cart_at p1 lam0 = Ret q1 ->
  angles2cart_at p2 lam0 = Ret q2 ->
  nonparallel q1 q2 ->
  nonparallel (dot Bm a1) (dot Bm a2) ->
  exists U k, get_U p1 a1 p2 a2 Bm lam0 = Ret U
              /\ 0 < k
              /\ dot U (cross (dot Bm a1) (dot Bm a2)) = vscale k (cross q1 q2).
Proof.
  intros E1 E2 Hq Hc.
  pose proof (well_posed_U _ _ _ _ _ _ _ _ E1 E2 Hq Hc) as HU.
  destruct Hq as (Hq1 & Hq2 & Hq3). destruct Hc as (Hc1 & Hc2 & Hc3).
  eexists. exists (norm (cross (dot Bm a1) (dot Bm a2)) / norm (cross q1 q2)).
  split; [exact HU |]. split.
  - apply Rdiv_lt_0_compat; apply norm_pos; assumption.
  - rewrite dot_matmul, triad_transpose_normal by (apply norm_neq0; exact Hc3).
    apply triad_third_axis.
Qed.

Lemma get_U_plane_normal_witness :
  exists U k, get_U (180, 90, 90, 0) (V3 0 0 1) (180, 90, 0, 0) (V3 1 0 0)
                    identity 1 = Ret U
              /\ 0 < k
              /\ dot U (cross (dot identity (V3 0 0 1)) (dot identity (V3 1 0 0)))
                 = vscale k (cross (V3 0 0 (4 * PI)) (V3 (4 * PI) 0 0)).
Proof.
  apply (get_U_plane_normal (180, 90, 90, 0) (180, 90, 0, 0)
           (V3 0 0 1) (V3 1 0 0) identity 1 (V3 0 0 (4 * PI)) (V3 (4 * PI) 0 0)).
  - exact angles2cart_axis3.
  - exact angles2cart_axis1.
  - apply axes_nonparallel; exact four_PI_neq0.
  - exact dot_identity_axes_nonparallel.
Defined.

(** X9: [U] sends the second assigned vector [c2] to a positive multiple
    of the second measured vector [q2] exactly when the two pairs make the
    same angle, that is [(c1 . c2) |q1 x q2| = (q1 . q2) |c1 x c2|]. *)
Theorem get_U_second_reflection
        (p1 p2 : position) (a1 a2 : vec) (Bm : mat) (lam0 : R) (q1 q2 : vec) :
  angles2cart_at p1 lam0 = Ret q1 ->
  angles2cart_at p2 lam0 = Ret q2 ->
  nonparallel q1 q2 ->
  nonparallel (dot Bm a1) (dot Bm a2) ->
  exists U, get_U p1 a1 p2 a2 Bm lam0 = Ret U
            /\ ((exists k, 0 < k /\ dot U (dot Bm a2) = vscale k q2)
                <-> inner (dot Bm a1) (dot Bm a2) * norm (cross q1 q2)
                    = inner q1 q2 * norm (cross (dot Bm a1) (dot Bm a2))).
Proof.
  intros E1 E2 Hq Hc.
  pose proof (well_posed_U _ _ _ _ _ _ _ _ E1 E2 Hq Hc) as HU.
  destruct Hq as (Hq1 & Hq2 & Hq3). destruct Hc as (Hc1 & Hc2 & Hc3).
  set (c1 := dot Bm a1) in *. set (c2 := dot Bm a2) in *.
  pose proof (norm_pos _ Hq1) as Pq1. pose proof (norm_pos _ Hc1) as Pc1.
  pose proof (norm_pos _ Hq3) as Pq3. pose proof (norm_pos _ Hc3) as Pc3.
  assert (Nq1 : norm q1 <> 0) by lra. assert (Nc1 : norm c1 <> 0) by lra.
  assert (Nq3 : norm (cross q1 q2) <> 0) by lra.
  assert (Nc3 : norm (cross c1 c2) <> 0) by lra.
  eexists. split; [exact HU |].
  rewrite dot_matmul, (triad_transpose_second c1 c2 Nc1 Nc3).
  split.
  - intros (k & Hk & E).
    assert (E' : dot (transpose (triad q1 q2))
                     (dot (triad q1 q2)
                          (V3 (inner c1 c2 / norm c1) (norm (cross c1 c2) / norm c1) 0))
                 = dot (transpose (triad q1 q2)) (vscale k q2))
      by (rewrite E; reflexivity).
    rewrite <- dot_matmul in E'.
    destruct (triad_is_rotation q1 q2 Nq1 Nq3) as [Ho _].
    unfold orthogonal in Ho. rewrite Ho, dot_identity, dot_vscale in E'.
    rewrite (triad_transpose_second q1 q2 Nq1 Nq3) in E'.
    unfold vscale in E'; simpl in E'. injection E' as Ex Ey.
    assert (Ex' : inner c1 c2 = k * (inner q1 q2 / norm q1) * norm c1)
      by (rewrite <- Ex; field; exact Nc1).
    assert (Ey' : norm (cross c1 c2) = k * (norm (cross q1 q2) / norm q1) * norm c1)
      by (rewrite <- Ey; field; exact Nc1).
    rewrite Ex'. rewrite Ey' at 1. field. exact Nq1.
  - intros E.
    exists (norm (cross c1 c2) * norm q1 / (norm c1 * norm (cross q1 q2))).
    split.
    + apply Rdiv_lt_0_compat; apply Rmult_lt_0_compat; assumption.
    + match goal with |- _ = vscale ?k _ =>
        transitivity (vscale k (dot (triad q1 q2)
                                    (dot (transpose (triad q1 q2)) q2)))
      end; [| rewrite (triad_transpose_triad q1 q2 q2 Nq1 Nq3); reflexivity].
      rewrite (triad_transpose_second q1 q2 Nq1 Nq3), <- dot_vscale.
      f_equal. unfold vscale; simpl. by_entries; try (field; tauto).
      apply Rmult_eq_reg_r with (norm (cross q1 q2) * norm c1);
        [| apply Rmult_integral_contrapositive_currified; assumption].
      transitivity (inner c1 c2 * norm (cross q1 q2)); [field; exact Nc1 |].
      rewrite E. field. tauto.
Qed.

Lemma get_U_second_reflection_witness :
  exists U, get_U (180, 90, 90, 0) (V3 0 0 1) (180, 90, 0, 0) (V3 1 0 0)
                  identity 1 = Ret U
            /\ ((exists k, 0 < k
                           /\ dot U (dot identity (V3 1 0 0))
                              = vscale k (V3 (4 * PI) 0 0))
                <-> inner (dot identity (V3 0 0 1)) (dot identity (V3 1 0 0))
                    * norm (cross (V3 0 0 (4 * PI)) (V3 (4 * PI) 0 0))
                    = inner (V3 0 0 (4 * PI)) (V3 (4 * PI) 0 0)
                      * norm (cross (dot identity (V3 0 0 1))
                                    (dot identity (V3 1 0 0)))).
Proof.
  apply (get_U_second_reflection (180, 90, 90, 0) (180, 90, 0, 0)
           (V3 0 0 1) (V3 1 0 0) identity 1 (V3 0 0 (4 * PI)) (V3 (4 * PI) 0 0)).
  - exact angles2cart_axis3.
  - exact angles2cart_axis1.
  - apply axes_nonparallel; exact four_PI_neq0.
  - exact dot_identity_axes_nonparallel.
Defined.

(** X10: with an invertible [B] and a well-posed pair of reflections,
    [get_HKL] at the first position gives the first assignment times
    [|q1| / |c1|]; at the second position, when the two pairs make the same
    angle, it gives the second assignment times
    [|q1 x q2| |c1| / (|q1| |c1 x c2|)]. *)
Theorem get_HKL_defining_reflections
        (p1 p2 : position) (a1 a2 : vec) (Bm : mat) (lam0 : R) (q1 q2 : vec) :
  det Bm <> 0 ->
  angles2cart_at p1 lam0 = Ret q1 ->
  angles2cart_at p2 lam0 = Ret q2 ->
  nonparallel q1 q2 ->
  nonparallel (dot Bm a1) (dot Bm a2) ->
  exists U invUB,
    get_U p1 a1 p2 a2 Bm lam0 = Ret U
    /\ inv (matmul U Bm) = Ret invUB
    /\ get_HKL p1 invUB lam0
       = Ret (vscale (norm q1 / norm (dot Bm a1)) a1)
    /\ (inner (dot Bm a1) (dot Bm a2) * norm (cross q1 q2)
        = inner q1 q2 * norm (cross (dot Bm a1) (dot Bm a2)) ->
        get_HKL p2 invUB lam0
        = Ret (vscale (norm (cross q1 q2) * norm (dot Bm a1)
                       / (norm q1 * norm (cross (dot Bm a1) (dot Bm a2)))) a2)).
Proof.
  intros HB E1 E2 Hq Hc.
  destruct (get_HKL_of_reflections p1 p2 a1 a2 Bm lam0 q1 q2 HB E1 E2 Hq Hc)
    as (U & iUB & HU & Hinv & H1 & H2).
  exists U, iUB. split; [exact HU |]. split; [exact Hinv |].
  split; [exact H1 |].
  intros E. rewrite H2. f_equal.
  destruct Hq as (Hq1 & Hq2 & Hq3). destruct Hc as (Hc1 & Hc2 & Hc3).
  set (c1 := dot Bm a1) in *. set (c2 := dot Bm a2) in *.
  pose proof (norm_neq0 _ Hq1) as Nq1. pose proof (norm_neq0 _ Hc1) as Nc1.
  pose proof (norm_neq0 _ Hq3) as Nq3. pose proof (norm_neq0 _ Hc3) as Nc3.
  assert (L : second_lambda q1 q2 c1 c2 = 0).
  { unfold second_lambda, second_mu.
    replace (norm (cross q1 q2) * norm c1 / (norm q1 * norm (cross c1 c2))
             * inner c1 c2 / (norm c1 * norm c1))
      with (inner c1 c2 * norm (cross q1 q2)
            / (norm q1 * norm (cross c1 c2) * norm c1))
      by (field; tauto).
    rewrite E. field. tauto. }
  rewrite L. unfold second_mu.
  destruct a1, a2. unfold vadd, vscale; simpl. by_entries; ring.
Qed.

Lemma det_identity_neq0 : det identity <> 0.
Proof. rewrite det_identity. lra. Qed.

Lemma axes_same_angle :
  inner (dot identity (V3 0 0 1)) (dot identity (V3 1 0 0))
  * norm (cross (V3 0 0 (4 * PI)) (V3 (4 * PI) 0 0))
  = inner (V3 0 0 (4 * PI)) (V3 (4 * PI) 0 0)
    * norm (cross (dot identity (V3 0 0 1)) (dot identity (V3 1 0 0))).
Proof. rewrite !dot_identity. unfold inner; simpl. ring. Qed.

Lemma get_HKL_defining_reflections_witness :
  exists U invUB,
    get_U (180, 90, 90, 0) (V3 0 0 1) (180, 90, 0, 0) (V3 1 0 0) identity 1
    = Ret U
    /\ inv (matmul U identity) = Ret invUB
    /\ get_HKL (180, 90, 90, 0) invUB 1
       = Ret (vscale (norm (V3 0 0 (4 * PI)) / norm (dot identity (V3 0 0 1)))
                     (V3 0 0 1))
    /\ get_HKL (180, 90, 0, 0) invUB 1
       = Ret (vscale (norm (cross (V3 0 0 (4 * PI)) (V3 (4 * PI) 0 0))
                      * norm (dot identity (V3 0 0 1))
                      / (norm (V3 0 0 (4 * PI))
                         * norm (cross (dot identity (V3 0 0 1))
                                       (dot identity (V3 1 0 0)))))
                     (V3 1 0 0)).
Proof.
  destruct (get_HKL_defining_reflections (180, 90, 90, 0) (180, 90, 0, 0)
              (V3 0 0 1) (V3 1 0 0) identity 1 (V3 0 0 (4 * PI)) (V3 (4 * PI) 0 0)
              det_identity_neq0 angles2cart_axis3 angles2cart_axis1
              (axes_nonparallel (4 * PI) (4 * PI) four_PI_neq0 four_PI_neq0)
              dot_identity_axes_nonparallel)
    as (U & iUB & HU & Hinv & H1 & H2).
  exists U, iUB. split; [exact HU |]. split; [exact Hinv |].
  split; [exact H1 | exact (H2 axes_same_angle)].
Defined.

(** X11: [get_HKL] inverts [UB]: with [invUB] returned by the inversion
    of [UB], the indices [h] it returns satisfy [UB h = q] for the vector
    [q] of the position, and they are the only ones that do. *)
Theorem get_HKL_inverts_UB (UB invUB : mat) (p : position) (lam0 : R) (q : vec) :
  inv UB = Ret invUB ->
  angles2cart_at p lam0 = Ret q ->
  exists h, get_HKL p invUB lam0 = Ret h
            /\ dot UB h = q
            /\ forall h', dot UB h' = q -> h' = h.
Proof.
  intros Hinv E. exists (dot invUB q).
  split; [unfold get_HKL; rewrite E; reflexivity |]. split.
  - rewrite <- dot_matmul, (inv_right _ _ Hinv). apply dot_identity.
  - intros h' H. symmetry. apply (inv_solves _ _ _ _ Hinv H).
Qed.

Lemma get_HKL_inverts_UB_witness :
  exists h, get_HKL (180, 90, 90, 0)
                    (mscale (/ det identity) (adjugate identity)) 1 = Ret h
            /\ dot identity h = V3 0 0 (4 * PI)
            /\ forall h', dot identity h' = V3 0 0 (4 * PI) -> h' = h.
Proof.
  apply (get_HKL_inverts_UB identity (mscale (/ det identity) (adjugate identity))
           (180, 90, 90, 0) 1 (V3 0 0 (4 * PI))).
  - exact (inv_ret identity det_identity_neq0).
  - exact angles2cart_axis3.
Defined.

(** ** The reciprocal cell and the matrix B *)

Lemma sin_deg_arccos (x : R) :
  -1 <= x <= 1 ->
  trigonometry.sin (trigonometry.rad2deg (acos x)) = sqrt (1 - x * x).
Proof.
  intros H. unfold trigonometry.sin. rewrite deg2rad_rad2deg.
  rewrite sin_acos by exact H. reflexivity.
Qed.

Lemma B_ret (u r : cell) :
  len_c u <> 0 ->
  B u r
  = Ret (M3 (V3 (len_a r) (len_b r * trigonometry.cos (ang_gamma r))
                (len_c r * trigonometry.cos (ang_beta r)))
            (V3 0 (len_b r * trigonometry.sin (ang_gamma r))
                (- len_c r * trigonometry.sin (ang_beta r)
                 * trigonometry.cos (ang_alpha u)))
            (V3 0 0 (2 * PI / len_c u))).
Proof.
  intros Hc. unfold B, py_div.
  destruct (Req_dec_T (len_c u) 0) as [E | _]; [contradiction | reflexivity].
Qed.

Lemma sqrt_unique (x y : R) : 0 <= x -> 0 <= y -> y * y = x -> sqrt x = y.
Proof. intros _ Hy <-. apply sqrt_square, Hy. Qed.

Lemma ratio_complement (p s q sp ss : R) :
  0 < sp -> 0 < ss -> sp * sp = p -> ss * ss = s ->
  s * (1 - q / (sp * ss) * (q / (sp * ss))) = s - q * q / p.
Proof. intros Hp Hs <- <-. field. lra. Qed.

(** A matrix built as [B] is from a symmetric [N] squares to [N] as soon
    as the two entries that use the direct cell fit. *)
Lemma BtB_generic (p q r s t w x c P G1 G2 : R) :
  0 < p -> 0 < s -> 0 < w -> c <> 0 ->
  q * q <= p * s -> r * r <= p * w ->
  0 <= G1 -> 0 <= G2 ->
  s - q * q / p = G1 * G1 ->
  w - r * r / p = G2 * G2 ->
  q * r / p - G1 * G2 * x = t ->
  G2 * G2 * (1 - x * x) = P / c * (P / c) ->
  let tg := q / (sqrt p * sqrt s) in
  let tb := r / (sqrt p * sqrt w) in
  let Bm := M3 (V3 (sqrt p) (sqrt s * tg) (sqrt w * tb))
               (V3 0 (sqrt s * sqrt (1 - tg * tg))
                   (- sqrt w * sqrt (1 - tb * tb) * x))
               (V3 0 0 (P / c)) in
  matmul (transpose Bm) Bm = M3 (V3 p q r) (V3 q s t) (V3 r t w).
Proof.
  intros Hp Hs Hw Hc Hq Hr HG1 HG2 E1 E2 E12 E22 tg tb.
  pose proof (sqrt_lt_R0 p Hp) as Sp. pose proof (sqrt_lt_R0 s Hs) as Ss.
  pose proof (sqrt_lt_R0 w Hw) as Sw.
  pose proof (sqrt_sqrt p (Rlt_le _ _ Hp)) as Ep.
  pose proof (sqrt_sqrt s (Rlt_le _ _ Hs)) as Es.
  pose proof (sqrt_sqrt w (Rlt_le _ _ Hw)) as Ew.
  assert (Hg : sqrt s * sqrt (1 - tg * tg) = G1).
  { rewrite <- sqrt_mult_alt by lra. unfold tg.
    rewrite (ratio_complement p s q (sqrt p) (sqrt s)) by assumption.
    rewrite E1. apply sqrt_square, HG1. }
  assert (Hb : sqrt w * sqrt (1 - tb * tb) = G2).
  { rewrite <- sqrt_mult_alt by lra. unfold tb.
    rewrite (ratio_complement p w r (sqrt p) (sqrt w)) by assumption.
    rewrite E2. apply sqrt_square, HG2. }
  cbv zeta.
  replace (- sqrt w * sqrt (1 - tb * tb) * x)
    with (- (sqrt w * sqrt (1 - tb * tb)) * x) by ring.
  rewrite Hg, Hb. unfold tg, tb.
  revert Sp Ss Sw Ep Es Ew.
  generalize (sqrt p) (sqrt s) (sqrt w). intros sp ss sw Sp Ss Sw Ep Es Ew.
  unfold_linalg_goal.
  assert (Ep' : p = sp * sp) by lra. assert (Es' : s = ss * ss) by lra.
  assert (Ew' : w = sw * sw) by lra.
  by_entries.
  - lra.
  - field; repeat split; first [assumption | lra].
  - field; repeat split; first [assumption | lra].
  - field; repeat split; first [assumption | lra].
  - transitivity (q * q / (sp * sp) + G1 * G1);
      [field; repeat split; first [assumption | lra] |].
    rewrite <- E1, <- Ep'. field; repeat split; first [assumption | lra].
  - transitivity (q * r / (sp * sp) - G1 * G2 * x);
      [field; repeat split; first [assumption | lra] |].
    rewrite <- Ep'. exact E12.
  - field; repeat split; first [assumption | lra].
  - transitivity (q * r / (sp * sp) - G1 * G2 * x);
      [field; repeat split; first [assumption | lra] |].
    rewrite <- Ep'. exact E12.
  - transitivity (r * r / (sp * sp) + G2 * G2
                  - (G2 * G2 * (1 - x * x) - P / c * (P / c)));
      [field; repeat split; first [assumption | lra] |].
    rewrite E22, <- E2, <- Ep'. field; repeat split; first [assumption | lra].
Qed.

Lemma sin_deg_sqr (x : R) :
  trigonometry.sin x * trigonometry.sin x
  = 1 - trigonometry.cos x * trigonometry.cos x.
Proof. pose proof (sin2_cos2_deg x). lra. Qed.

(** For a valid cell the matrix [B] returns and squares to [Minv]. *)
Lemma valid_cell_B (u : cell) :
  valid_cell u ->
  exists N Bm,
    Minv u = Ret N
    /\ gram_like N
    /\ 0 < det N
    /\ reciprocal u = Ret (cell_of N)
    /\ B u (cell_of N) = Ret Bm
    /\ matmul (transpose Bm) Bm = N.
Proof.
  intros Hv. pose proof (Minv_gram_like u Hv) as HN.
  destruct Hv as (Ha & Hb & Hc & Hal & Hbe & Hga & Hpd).
  pose proof (pos_def_det _ (M_symmetric u) Hpd) as Hd.
  assert (Hd0 : det (M u) <> 0) by lra.
  pose proof (Minv_ret u Hd0) as HM.
  set (N := mscale ((2 * PI) ^ 2) (mscale (/ det (M u)) (adjugate (M u)))) in *.
  pose proof (reciprocal_of_Minv u N HM HN) as Hr.
  pose proof (sin_deg_pos _ Hal) as Hs.
  pose proof (sin_deg_sqr (ang_alpha u)) as Hsx.
  pose proof PI_RGT_0 as HPI.
  (* the entries of N *)
  assert (HNk : N = mscale ((2 * PI) ^ 2 * / det (M u)) (adjugate (M u)))
    by (unfold N; apply mscale_mscale).
  assert (Hk : 0 < (2 * PI) ^ 2 * / det (M u))
    by (apply Rmult_lt_0_compat; [apply four_PI_sqr_pos | apply Rinv_0_lt_compat, Hd]).
  assert (Fk : (2 * PI) ^ 2 * / det (M u) * det (M u) = 2 * PI * (2 * PI))
    by (field; exact Hd0).
  revert HNk Hk Fk. generalize ((2 * PI) ^ 2 * / det (M u)). intros k HNk Hk Fk.
  assert (F0 : m00 N = k * (len_b u * len_b u * (len_c u * len_c u)
                            * (trigonometry.sin (ang_alpha u)
                               * trigonometry.sin (ang_alpha u)))).
  { rewrite HNk, Hsx. destruct u as [a b c al be ga]; simpl.
    unfold M; simpl. unfold_linalg_goal. ring. }
  assert (F1 : m11 N * m00 N - m01 N * m01 N
               = k * k * det (M u) * (len_c u * len_c u)).
  { rewrite HNk. destruct u as [a b c al be ga]; simpl.
    unfold M; simpl. unfold_linalg_goal. ring. }
  assert (F2 : m22 N * m00 N - m02 N * m02 N
               = k * k * det (M u) * (len_b u * len_b u)).
  { rewrite HNk. destruct u as [a b c al be ga]; simpl.
    unfold M; simpl. unfold_linalg_goal. ring. }
  assert (F3 : m01 N * m02 N - m00 N * m12 N
               = k * k * det (M u)
                 * (len_b u * len_c u * trigonometry.cos (ang_alpha u))).
  { rewrite HNk. destruct u as [a b c al be ga]; simpl.
    unfold M; simpl. unfold_linalg_goal. ring. }
  assert (FN : 0 < det N).
  { rewrite HNk, det_mscale, det_adjugate.
    apply Rmult_lt_0_compat; [apply pow_lt, Hk | apply Rmult_lt_0_compat; exact Hd]. }
  clear HNk.
  exists N. eexists.
  split; [exact HM |]. split; [exact HN |]. split; [exact FN |].
  split; [exact Hr |].
  assert (Hc0 : len_c u <> 0) by lra.
  split; [apply (B_ret u (cell_of N) Hc0) |].
  destruct HN as (S & H0 & H1 & H2 & H12 & H02 & H01).
  unfold cell_of; cbn [len_a len_b len_c ang_alpha ang_beta ang_gamma].
  rewrite !cos_deg_arccos, !sin_deg_arccos by (apply ratio_bound; assumption).
  clearbody N. clear HM Hr.
  destruct N as [[p q r] [q' s t] [r' t' w]]. unfold symmetric in S. cbv in S.
  assert (Eq : q' = q /\ r' = r /\ t' = t)
    by (injection S; intros; repeat split; congruence).
  clear S. destruct Eq as (-> & -> & ->).
  unfold m00, m01, m02, m11, m12, m22 in *; cbn [v0 v1 v2 row0 row1 row2] in *.
  revert Hd Fk F0 F1 F2 F3 Hs Hsx.
  generalize (det (M u)) (trigonometry.sin (ang_alpha u))
             (trigonometry.cos (ang_alpha u)).
  generalize (len_b u) (len_c u) Hb Hc Hc0.
  clear Ha Hb Hc Hal Hbe Hga Hpd Hd0 Hc0 H12 FN.
  intros b c Hb Hc Hc0 d sa x Hd Fk F0 F1 F2 F3 Hs Hsx.
  assert (Hp0 : p <> 0) by lra.
  assert (Hbs : 0 < b * sa) by (apply Rmult_lt_0_compat; assumption).
  assert (Hcs : 0 < c * sa) by (apply Rmult_lt_0_compat; assumption).
  apply (BtB_generic p q r s t w x c (2 * PI)
           (2 * PI / (b * sa)) (2 * PI / (c * sa))); try assumption.
  - apply Rlt_le, Rdiv_lt_0_compat; lra.
  - apply Rlt_le, Rdiv_lt_0_compat; lra.
  - transitivity ((s * p - q * q) / p); [field; exact Hp0 |].
    rewrite F1, F0.
    transitivity (k * d / (b * sa * (b * sa))); [field; repeat split; lra |].
    rewrite Fk. field. lra.
  - transitivity ((w * p - r * r) / p); [field; exact Hp0 |].
    rewrite F2, F0.
    transitivity (k * d / (c * sa * (c * sa))); [field; repeat split; lra |].
    rewrite Fk. field. lra.
  - transitivity (q * r / p - (q * r - p * t) / p); [| field; exact Hp0].
    f_equal. rewrite F3, F0.
    transitivity (k * d * x / (b * sa * (c * sa))); [| field; repeat split; lra].
    rewrite Fk. field. split; lra.
  - rewrite <- Hsx. field. split; lra.
Qed.

Lemma inner_dot_gram (A : mat) (h k : vec) :
  inner (dot A h) (dot A k) = inner h (dot (matmul (transpose A) A) k).
Proof. destruct A as [[] [] []], h, k. unfold_linalg_goal. ring. Qed.

(** X12: for a valid cell the matrix [B] is a square root of the scaled
    inverse metric tensor: [B^t B = Minv], so that the squared length of
    [B h] is [h^t Minv h]. *)
Theorem B_squares_to_Minv (u : cell) :
  0 < len_a u -> 0 < len_b u -> 0 < len_c u ->
  0 < ang_alpha u < 180 -> 0 < ang_beta u < 180 -> 0 < ang_gamma u < 180 ->
  pos_def (M u) ->
  exists N r Bm,
    Minv u = Ret N
    /\ reciprocal u = Ret r
    /\ B u r = Ret Bm
    /\ matmul (transpose Bm) Bm = N
    /\ forall h : vec, inner (dot Bm h) (dot Bm h) = inner h (dot N h).
Proof.
  intros Ha Hb Hc Hal Hbe Hga Hpd.
  assert (Hv : valid_cell u) by (repeat split; tauto).
  destruct (valid_cell_B u Hv) as (N & Bm & HM & _ & _ & Hr & HB & HBB).
  exists N, (cell_of N), Bm. repeat split; try assumption.
  intros h. rewrite inner_dot_gram, HBB. reflexivity.
Qed.

Lemma B_squares_to_Minv_witness :
  exists N r Bm,
    Minv (Cell 1 1 1 90 90 90) = Ret N
    /\ reciprocal (Cell 1 1 1 90 90 90) = Ret r
    /\ B (Cell 1 1 1 90 90 90) r = Ret Bm
    /\ matmul (transpose Bm) Bm = N
    /\ forall h : vec, inner (dot Bm h) (dot Bm h) = inner h (dot N h).
Proof.
  apply (B_squares_to_Minv (Cell 1 1 1 90 90 90)); simpl; try lra.
  exact pos_def_M_cubic.
Defined.

Lemma cross_dot (A : mat) (u v : vec) :
  cross (dot A u) (dot A v) = dot (transpose (adjugate A)) (cross u v).
Proof. destruct A as [[] [] []], u, v. unfold_linalg_goal. by_entries; ring. Qed.

Lemma transpose_adjugate_dot (A : mat) (w : vec) :
  dot (transpose A) (dot (transpose (adjugate A)) w) = vscale (det A) w.
Proof. destruct A as [[] [] []], w. unfold_linalg_goal. by_entries; ring. Qed.

Lemma dot_vzero (A : mat) : dot A vzero = vzero.
Proof. destruct A as [[] [] []]. unfold_linalg_goal. by_entries; ring. Qed.

Lemma vscale_eq_zero (k : R) (w : vec) : k <> 0 -> vscale k w = vzero -> w = vzero.
Proof.
  intros Hk. destruct w as [x y z]. unfold vscale, vzero; simpl.
  intros E. injection E as E0 E1 E2.
  by_entries;
    match goal with H : k * ?t = 0 |- ?t = 0 =>
      destruct (Rmult_integral _ _ H); [contradiction | assumption] end.
Qed.

(** An invertible matrix keeps two vectors independent. *)
Lemma cross_dot_nonzero (A : mat) (u v : vec) :
  det A <> 0 -> cross u v <> vzero -> cross (dot A u) (dot A v) <> vzero.
Proof.
  intros Hd Hc E. apply Hc. apply (vscale_eq_zero (det A)); [exact Hd |].
  rewrite <- transpose_adjugate_dot, <- cross_dot, E. apply dot_vzero.
Qed.

(** X13: with a valid cell and two reflections whose measured vectors
    are independent and whose assignments are independent, the whole chain
    of the notebook goes through: [B] and [U] return and [UB] is
    inverted. *)
Theorem UB_invertible
        (u : cell) (p1 p2 : position) (a1 a2 : vec) (lam0 : R) (q1 q2 : vec) :
  valid_cell u ->
  angles2cart_at p1 lam0 = Ret q1 ->
  angles2cart_at p2 lam0 = Ret q2 ->
  cross q1 q2 <> vzero ->
  cross a1 a2 <> vzero ->
  exists r Bm U invUB,
    reciprocal u = Ret r
    /\ B u r = Ret Bm
    /\ get_U p1 a1 p2 a2 Bm lam0 = Ret U
    /\ inv (matmul U Bm) = Ret invUB.
Proof.
  intros Hv E1 E2 Hq Ha.
  destruct (valid_cell_B u Hv) as (N & Bm & HM & _ & HdN & Hr & HB & HBB).
  assert (Hd : det Bm <> 0).
  { intros E. rewrite <- HBB, det_matmul, det_transpose, E in HdN. lra. }
  assert (Hc : nonparallel (dot Bm a1) (dot Bm a2))
    by (apply nonparallel_iff_cross, cross_dot_nonzero; assumption).
  apply nonparallel_iff_cross in Hq.
  destruct (get_HKL_of_reflections p1 p2 a1 a2 Bm lam0 q1 q2 Hd E1 E2 Hq Hc)
    as (U & iUB & HU & Hinv & _).
  exists (cell_of N), Bm, U, iUB. repeat split; assumption.
Qed.

Lemma valid_cell_cubic : valid_cell (Cell 1 1 1 90 90 90).
Proof. repeat split; simpl; try lra. exact pos_def_M_cubic. Qed.

Lemma UB_invertible_witness :
  exists r Bm U invUB,
    reciprocal (Cell 1 1 1 90 90 90) = Ret r
    /\ B (Cell 1 1 1 90 90 90) r = Ret Bm
    /\ get_U (180, 90, 90, 0) (V3 0 0 1) (180, 90, 0, 0) (V3 1 0 0) Bm 1
       = Ret U
    /\ inv (matmul U Bm) = Ret invUB.
Proof.
  apply (UB_invertible (Cell 1 1 1 90 90 90) (180, 90, 90, 0) (180, 90, 0, 0)
           (V3 0 0 1) (V3 1 0 0) 1 (V3 0 0 (4 * PI)) (V3 (4 * PI) 0 0)).
  - exact valid_cell_cubic.
  - exact angles2cart_axis3.
  - exact angles2cart_axis1.
  - apply (axes_nonparallel (4 * PI) (4 * PI)); exact four_PI_neq0.
  - apply (axes_nonparallel 1 1); lra.
Defined.

(** X14: the metric tensor of the reciprocal cell of a valid cell is
    [(2 pi)^2] times the inverse of the metric tensor of the cell. *)
Theorem reciprocal_metric_dual (u : cell) :
  valid_cell u ->
  exists r, reciprocal u = Ret r
            /\ matmul (M r) (M u) = mscale ((2 * PI) ^ 2) identity
            /\ matmul (M u) (M r) = mscale ((2 * PI) ^ 2) identity.
Proof.
  intros Hv. pose proof (Minv_gram_like u Hv) as HN.
  destruct Hv as (Ha & Hb & Hc & Hal & Hbe & Hga & Hpd).
  pose proof (pos_def_det _ (M_symmetric u) Hpd) as Hd.
  assert (Hd0 : det (M u) <> 0) by lra.
  exists (cell_of (mscale ((2 * PI) ^ 2) (mscale (/ det (M u)) (adjugate (M u))))).
  split; [apply reciprocal_of_Minv; [apply Minv_ret, Hd0 | exact HN] |].
  rewrite (M_cell_of _ HN). split.
  - rewrite !matmul_mscale_l, matmul_adjugate_l, !mscale_mscale.
    f_equal. field. exact Hd0.
  - rewrite !matmul_mscale_r, matmul_adjugate_r, !mscale_mscale.
    f_equal. field. exact Hd0.
Qed.

Lemma reciprocal_metric_dual_witness :
  exists r, reciprocal (Cell 1 1 1 90 90 90) = Ret r
            /\ matmul (M r) (M (Cell 1 1 1 90 90 90))
               = mscale ((2 * PI) ^ 2) identity
            /\ matmul (M (Cell 1 1 1 90 90 90)) (M r)
               = mscale ((2 * PI) ^ 2) identity.
Proof. apply (reciprocal_metric_dual (Cell 1 1 1 90 90 90)), valid_cell_cubic. Defined.

Lemma ratio_bound_strict (x p q : R) :
  0 < p -> 0 < q -> x * x < p * q ->
  -1 < x / (sqrt p * sqrt q) < 1.
Proof.
  intros Hp Hq Hx.
  pose proof (sqrt_lt_R0 p Hp) as Sp. pose proof (sqrt_lt_R0 q Hq) as Sq.
  pose proof (sqrt_sqrt p (Rlt_le _ _ Hp)) as Ep.
  pose proof (sqrt_sqrt q (Rlt_le _ _ Hq)) as Eq.
  set (s := sqrt p * sqrt q) in *.
  assert (Hs : 0 < s) by (unfold s; nra).
  assert (Es : s * s = p * q) by (unfold s; nra).
  assert (Hx1 : x < s) by nra.
  assert (Hx2 : - s < x) by nra.
  split.
  - apply Rmult_lt_reg_r with s; [exact Hs |].
    unfold Rdiv. rewrite Rmult_assoc, Rinv_l by lra. lra.
  - apply Rmult_lt_reg_r with s; [exact Hs |].
    unfold Rdiv. rewrite Rmult_assoc, Rinv_l by lra. lra.
Qed.

Lemma rad2deg_acos_range (x : R) :
  -1 < x < 1 -> 0 < trigonometry.rad2deg (acos x) < 180.
Proof.
  intros H. pose proof (acos_bound_lt x H) as [H0 H1]. pose proof PI_RGT_0 as HP.
  unfold trigonometry.rad2deg. split.
  - apply Rdiv_lt_0_compat; lra.
  - apply Rmult_lt_reg_r with PI; [exact HP |].
    unfold Rdiv. rewrite Rmult_assoc, Rinv_l by lra. lra.
Qed.

Lemma inner_comm (u v : vec) : inner u v = inner v u.
Proof. destruct u, v. unfold inner; simpl. ring. Qed.

Lemma inner_vscale_r (k : R) (u v : vec) :
  inner u (vscale k v) = k * inner u v.
Proof. destruct u, v. unfold inner, vscale; simpl. ring. Qed.

(** The inverse of a positive definite symmetric matrix, scaled by a
    positive factor, is positive definite. *)
Lemma pos_def_scaled_adjugate (A : mat) (k : R) :
  symmetric A -> pos_def A -> 0 < k -> pos_def (mscale k (adjugate A)).
Proof.
  intros HS HA Hk x Hx.
  pose proof (pos_def_det A HS HA) as Hd.
  set (y := dot (adjugate A) x).
  assert (Ey : dot A y = vscale (det A) x).
  { unfold y. rewrite <- dot_matmul, matmul_adjugate_r, dot_mscale, dot_identity.
    reflexivity. }
  assert (Hy : y <> vzero).
  { intros E. rewrite E, dot_vzero in Ey. apply Hx.
    apply (vscale_eq_zero (det A)); [lra | symmetry; exact Ey]. }
  pose proof (HA y Hy) as Hpos. rewrite Ey, inner_vscale_r in Hpos.
  rewrite dot_mscale, inner_vscale_r. fold y.
  rewrite (inner_comm x y). nra.
Qed.

(** X15: the reciprocal cell of a valid cell is a valid cell: positive
    lengths, angles strictly between 0 and 180 degrees, positive definite
    metric tensor. *)
Theorem reciprocal_valid (u : cell) :
  valid_cell u -> exists r, reciprocal u = Ret r /\ valid_cell r.
Proof.
  intros Hv. pose proof (Minv_gram_like u Hv) as HN.
  destruct Hv as (Ha & Hb & Hc & Hal & Hbe & Hga & Hpd).
  pose proof (pos_def_det _ (M_symmetric u) Hpd) as Hd.
  assert (Hd0 : det (M u) <> 0) by lra.
  pose proof (Minv_ret u Hd0) as HM.
  set (N := mscale ((2 * PI) ^ 2) (mscale (/ det (M u)) (adjugate (M u)))) in *.
  exists (cell_of N). split; [apply reciprocal_of_Minv; assumption |].
  assert (HNk : N = mscale ((2 * PI) ^ 2 * / det (M u)) (adjugate (M u)))
    by (unfold N; apply mscale_mscale).
  assert (Hk : 0 < (2 * PI) ^ 2 * / det (M u))
    by (apply Rmult_lt_0_compat; [apply four_PI_sqr_pos | apply Rinv_0_lt_compat, Hd]).
  revert HNk Hk. generalize ((2 * PI) ^ 2 * / det (M u)). intros k HNk Hk.
  assert (G1 : m11 N * m22 N - m12 N * m12 N
               = k * k * det (M u) * (len_a u * len_a u)).
  { rewrite HNk. destruct u as [a b c al be ga]; simpl.
    unfold M; simpl. unfold_linalg_goal. ring. }
  assert (G2 : m00 N * m22 N - m02 N * m02 N
               = k * k * det (M u) * (len_b u * len_b u)).
  { rewrite HNk. destruct u as [a b c al be ga]; simpl.
    unfold M; simpl. unfold_linalg_goal. ring. }
  assert (G3 : m00 N * m11 N - m01 N * m01 N
               = k * k * det (M u) * (len_c u * len_c u)).
  { rewrite HNk. destruct u as [a b c al be ga]; simpl.
    unfold M; simpl. unfold_linalg_goal. ring. }
  assert (Hkd : 0 < k * k * det (M u))
    by (repeat apply Rmult_lt_0_compat; assumption).
  assert (Hpos : pos_def (M (cell_of N))).
  { rewrite (M_cell_of N HN), HNk.
    apply pos_def_scaled_adjugate; [apply M_symmetric | exact Hpd | exact Hk]. }
  assert (S1 : m12 N * m12 N < m11 N * m22 N).
  { assert (0 < k * k * det (M u) * (len_a u * len_a u))
      by (apply Rmult_lt_0_compat; [exact Hkd | nra]). lra. }
  assert (S2 : m02 N * m02 N < m00 N * m22 N).
  { assert (0 < k * k * det (M u) * (len_b u * len_b u))
      by (apply Rmult_lt_0_compat; [exact Hkd | nra]). lra. }
  assert (S3 : m01 N * m01 N < m00 N * m11 N).
  { assert (0 < k * k * det (M u) * (len_c u * len_c u))
      by (apply Rmult_lt_0_compat; [exact Hkd | nra]). lra. }
  destruct HN as (S & H0 & H1 & H2 & H12 & H02 & H01).
  unfold valid_cell, cell_of;
    cbn [len_a len_b len_c ang_alpha ang_beta ang_gamma].
  split; [apply sqrt_lt_R0, H0 |]. split; [apply sqrt_lt_R0, H1 |].
  split; [apply sqrt_lt_R0, H2 |].
  split; [apply rad2deg_acos_range, ratio_bound_strict; assumption |].
  split; [apply rad2deg_acos_range, ratio_bound_strict; assumption |].
  split; [apply rad2deg_acos_range, ratio_bound_strict; assumption |].
  exact Hpos.
Qed.

Lemma reciprocal_valid_witness :
  exists r, reciprocal (Cell 1 1 1 90 90 90) = Ret r /\ valid_cell r.
Proof. apply (reciprocal_valid (Cell 1 1 1 90 90 90)), valid_cell_cubic. Defined.

Ltac pos_prod :=
  repeat (apply Rmult_lt_0_compat; [| first [assumption | lra]]);
  first [assumption | lra].

(** X16: the reciprocal constants of a valid cell are the textbook
    ones: with [V = sqrt (det M)] the volume of the cell,
    [a_star = 2 pi b c sin(alpha) / V] and the cosine of [alpha_star] is
    [(cos(beta) cos(gamma) - cos(alpha)) / (sin(beta) sin(gamma))], and
    likewise for the other two. *)
Theorem reciprocal_closed_form (u : cell) :
  valid_cell u ->
  exists r,
    reciprocal u = Ret r
    /\ len_a r = 2 * PI * len_b u * len_c u * trigonometry.sin (ang_alpha u)
                 / sqrt (det (M u))
    /\ len_b r = 2 * PI * len_a u * len_c u * trigonometry.sin (ang_beta u)
                 / sqrt (det (M u))
    /\ len_c r = 2 * PI * len_a u * len_b u * trigonometry.sin (ang_gamma u)
                 / sqrt (det (M u))
    /\ trigonometry.cos (ang_alpha r)
       = (trigonometry.cos (ang_beta u) * trigonometry.cos (ang_gamma u)
          - trigonometry.cos (ang_alpha u))
         / (trigonometry.sin (ang_beta u) * trigonometry.sin (ang_gamma u))
    /\ trigonometry.cos (ang_beta r)
       = (trigonometry.cos (ang_alpha u) * trigonometry.cos (ang_gamma u)
          - trigonometry.cos (ang_beta u))
         / (trigonometry.sin (ang_alpha u) * trigonometry.sin (ang_gamma u))
    /\ trigonometry.cos (ang_gamma r)
       = (trigonometry.cos (ang_alpha u) * trigonometry.cos (ang_beta u)
          - trigonometry.cos (ang_gamma u))
         / (trigonometry.sin (ang_alpha u) * trigonometry.sin (ang_beta u)).
Proof.
  intros Hv. pose proof (Minv_gram_like u Hv) as HN.
  destruct Hv as (Ha & Hb & Hc & Hal & Hbe & Hga & Hpd).
  pose proof (pos_def_det _ (M_symmetric u) Hpd) as Hd.
  assert (Hd0 : det (M u) <> 0) by lra.
  pose proof (Minv_ret u Hd0) as HM.
  set (N := mscale ((2 * PI) ^ 2) (mscale (/ det (M u)) (adjugate (M u)))) in *.
  exists (cell_of N). split; [apply reciprocal_of_Minv; assumption |].
  pose proof (sin_deg_pos _ Hal) as Sa. pose proof (sin_deg_pos _ Hbe) as Sb.
  pose proof (sin_deg_pos _ Hga) as Sg.
  pose proof (sin_deg_sqr (ang_alpha u)) as Qa.
  pose proof (sin_deg_sqr (ang_beta u)) as Qb.
  pose proof (sin_deg_sqr (ang_gamma u)) as Qg.
  pose proof PI_RGT_0 as HPI.
  pose proof (sqrt_lt_R0 _ Hd) as HV.
  pose proof (sqrt_sqrt _ (Rlt_le _ _ Hd)) as EV.
  assert (HNk : N = mscale ((2 * PI) ^ 2 * / det (M u)) (adjugate (M u)))
    by (unfold N; apply mscale_mscale).
  assert (Fk : (2 * PI) ^ 2 * / det (M u) * det (M u) = 2 * PI * (2 * PI))
    by (field; exact Hd0).
  revert HNk Fk. generalize ((2 * PI) ^ 2 * / det (M u)). intros k HNk Fk.
  assert (F00 : m00 N = k * (len_b u * len_c u * trigonometry.sin (ang_alpha u))
                          * (len_b u * len_c u * trigonometry.sin (ang_alpha u))).
  { transitivity (k * (len_b u * len_b u * (len_c u * len_c u)
                       * (trigonometry.sin (ang_alpha u)
                          * trigonometry.sin (ang_alpha u)))); [| ring].
    rewrite HNk, Qa. destruct u as [a b c al be ga]; simpl.
    unfold M; simpl. unfold_linalg_goal. ring. }
  assert (F11 : m11 N = k * (len_a u * len_c u * trigonometry.sin (ang_beta u))
                          * (len_a u * len_c u * trigonometry.sin (ang_beta u))).
  { transitivity (k * (len_a u * len_a u * (len_c u * len_c u)
                       * (trigonometry.sin (ang_beta u)
                          * trigonometry.sin (ang_beta u)))); [| ring].
    rewrite HNk, Qb. destruct u as [a b c al be ga]; simpl.
    unfold M; simpl. unfold_linalg_goal. ring. }
  assert (F22 : m22 N = k * (len_a u * len_b u * trigonometry.sin (ang_gamma u))
                          * (len_a u * len_b u * trigonometry.sin (ang_gamma u))).
  { transitivity (k * (len_a u * len_a u * (len_b u * len_b u)
                       * (trigonometry.sin (ang_gamma u)
                          * trigonometry.sin (ang_gamma u)))); [| ring].
    rewrite HNk, Qg. destruct u as [a b c al be ga]; simpl.
    unfold M; simpl. unfold_linalg_goal. ring. }
  assert (F12 : m12 N = k * (len_a u * len_a u * len_b u * len_c u)
                          * (trigonometry.cos (ang_beta u)
                             * trigonometry.cos (ang_gamma u)
                             - trigonometry.cos (ang_alpha u))).
  { rewrite HNk. destruct u as [a b c al be ga]; simpl.
    unfold M; simpl. unfold_linalg_goal. ring. }
  assert (F02 : m02 N = k * (len_a u * len_b u * len_b u * len_c u)
                          * (trigonometry.cos (ang_alpha u)
                             * trigonometry.cos (ang_gamma u)
                             - trigonometry.cos (ang_beta u))).
  { rewrite HNk. destruct u as [a b c al be ga]; simpl.
    unfold M; simpl. unfold_linalg_goal. ring. }
  assert (F01 : m01 N = k * (len_a u * len_b u * len_c u * len_c u)
                          * (trigonometry.cos (ang_alpha u)
                             * trigonometry.cos (ang_beta u)
                             - trigonometry.cos (ang_gamma u))).
  { rewrite HNk. destruct u as [a b c al be ga]; simpl.
    unfold M; simpl. unfold_linalg_goal. ring. }
  clear HNk HM.
  destruct HN as (_ & H0 & H1 & H2 & H12 & H02 & H01).
  unfold cell_of; cbn [len_a len_b len_c ang_alpha ang_beta ang_gamma].
  rewrite !cos_deg_arccos by (apply ratio_bound; assumption).
  clearbody N.
  revert Hd Fk F00 F11 F22 F12 F02 F01 HV EV Sa Sb Sg.
  generalize (det (M u)) (trigonometry.sin (ang_alpha u))
             (trigonometry.sin (ang_beta u)) (trigonometry.sin (ang_gamma u))
             (trigonometry.cos (ang_alpha u)) (trigonometry.cos (ang_beta u))
             (trigonometry.cos (ang_gamma u)).
  generalize (len_a u) (len_b u) (len_c u) Ha Hb Hc. clear - HPI.
  intros a b c Ha Hb Hc d sa sb sg x y z Hd Fk F00 F11 F22 F12 F02 F01 HV EV
         Sa Sb Sg.
  revert HV EV. generalize (sqrt d). intros V HV EV.
  assert (Hk : k = 2 * PI * (2 * PI) / (V * V))
    by (rewrite EV, <- Fk; field; lra).
  assert (Ea : sqrt (m00 N) = 2 * PI * b * c * sa / V).
  { apply sqrt_unique.
    - rewrite F00. assert (0 < k) by (rewrite Hk; apply Rdiv_lt_0_compat; nra).
      apply Rlt_le. repeat apply Rmult_lt_0_compat; assumption.
    - apply Rlt_le, Rdiv_lt_0_compat; [| exact HV]. pos_prod.
    - rewrite F00, Hk. field. lra. }
  assert (Eb : sqrt (m11 N) = 2 * PI * a * c * sb / V).
  { apply sqrt_unique.
    - rewrite F11. assert (0 < k) by (rewrite Hk; apply Rdiv_lt_0_compat; nra).
      apply Rlt_le. repeat apply Rmult_lt_0_compat; assumption.
    - apply Rlt_le, Rdiv_lt_0_compat; [| exact HV]. pos_prod.
    - rewrite F11, Hk. field. lra. }
  assert (Ec : sqrt (m22 N) = 2 * PI * a * b * sg / V).
  { apply sqrt_unique.
    - rewrite F22. assert (0 < k) by (rewrite Hk; apply Rdiv_lt_0_compat; nra).
      apply Rlt_le. repeat apply Rmult_lt_0_compat; assumption.
    - apply Rlt_le, Rdiv_lt_0_compat; [| exact HV]. pos_prod.
    - rewrite F22, Hk. field. lra. }
  rewrite Ea, Eb, Ec, F12, F02, F01, Hk.
  repeat split; try reflexivity; field; repeat split; lra.
Qed.

Lemma reciprocal_closed_form_witness :
  exists r,
    reciprocal (Cell 1 1 1 90 90 90) = Ret r
    /\ len_a r = 2 * PI * 1 * 1 * trigonometry.sin 90
                 / sqrt (det (M (Cell 1 1 1 90 90 90)))
    /\ len_b r = 2 * PI * 1 * 1 * trigonometry.sin 90
                 / sqrt (det (M (Cell 1 1 1 90 90 90)))
    /\ len_c r = 2 * PI * 1 * 1 * trigonometry.sin 90
                 / sqrt (det (M (Cell 1 1 1 90 90 90)))
    /\ trigonometry.cos (ang_alpha r)
       = (trigonometry.cos 90 * trigonometry.cos 90 - trigonometry.cos 90)
         / (trigonometry.sin 90 * trigonometry.sin 90)
    /\ trigonometry.cos (ang_beta r)
       = (trigonometry.cos 90 * trigonometry.cos 90 - trigonometry.cos 90)
         / (trigonometry.sin 90 * trigonometry.sin 90)
    /\ trigonometry.cos (ang_gamma r)
       = (trigonometry.cos 90 * trigonometry.cos 90 - trigonometry.cos 90)
         / (trigonometry.sin 90 * trigonometry.sin 90).
Proof.
  apply (reciprocal_closed_form (Cell 1 1 1 90 90 90)), valid_cell_cubic.
Defined.

(** X17: [B] raises exactly when [c = 0] (a division of Python floats),
    and in the order of the notebook this is never reached: with [c = 0]
    the inversion of [M] has raised before. *)
Theorem B_zero_division (u r : cell) :
  (raises (B u r) <-> len_c u = 0)
  /\ (len_c u = 0 -> B u r = Raise ZeroDivisionError
                     /\ reciprocal u = Raise LinAlgError).
Proof.
  assert (Hz : len_c u = 0 -> B u r = Raise ZeroDivisionError
                              /\ reciprocal u = Raise LinAlgError).
  { intros E. split.
    - unfold B, py_div. rewrite E.
      destruct (Req_dec_T 0 0) as [_ | N]; [reflexivity | contradiction N; reflexivity].
    - apply reciprocal_zero_length. right; right; exact E. }
  split; [| exact Hz]. split.
  - intros Hr. destruct (Req_dec_T (len_c u) 0) as [E | N]; [exact E |].
    exfalso. rewrite (B_ret u r N) in Hr. exact (raises_Ret _ _ Hr).
  - intros E. exists ZeroDivisionError. apply Hz, E.
Qed.

Lemma B_zero_division_witness :
  B (Cell 1 1 0 90 90 90) (Cell 1 1 1 90 90 90) = Raise ZeroDivisionError
  /\ reciprocal (Cell 1 1 0 90 90 90) = Raise LinAlgError.
Proof.
  apply (proj2 (B_zero_division (Cell 1 1 0 90 90 90) (Cell 1 1 1 90 90 90))).
  reflexivity.
Defined.

(** X18: for a monoclinic cell ([alpha = gamma = 90]) the reciprocal
    constants are [2 pi / (a sin(beta))], [2 pi / b], [2 pi / (c sin(beta))]
    with [beta_star = 180 - beta]; with [beta = 90] too they are [2 pi / a],
    [2 pi / b], [2 pi / c]. *)
Theorem reciprocal_of_monoclinic (a b c beta : R) :
  0 < a -> 0 < b -> 0 < c -> 0 < beta < 180 ->
  reciprocal (Cell a b c 90 beta 90)
  = Ret (Cell (2 * PI / (a * trigonometry.sin beta))
              (2 * PI / b)
              (2 * PI / (c * trigonometry.sin beta))
              90 (180 - beta) 90)
  /\ reciprocal (Cell a b c 90 90 90)
     = Ret (Cell (2 * PI / a) (2 * PI / b) (2 * PI / c) 90 90 90).
Proof.
  intros Ha Hb Hc Hbeta. split; [apply reciprocal_monoclinic; assumption |].
  rewrite reciprocal_monoclinic by (try assumption; lra).
  rewrite sin_deg_90. f_equal. f_equal; field; lra.
Qed.

Lemma reciprocal_of_monoclinic_witness :
  reciprocal (Cell 1 2 3 90 60 90)
  = Ret (Cell (2 * PI / (1 * trigonometry.sin 60))
              (2 * PI / 2)
              (2 * PI / (3 * trigonometry.sin 60))
              90 (180 - 60) 90)
  /\ reciprocal (Cell 1 2 3 90 90 90)
     = Ret (Cell (2 * PI / 1) (2 * PI / 2) (2 * PI / 3) 90 90 90).
Proof. apply (reciprocal_of_monoclinic 1 2 3 60); lra. Defined.

(** ** Bragg's law for the indexed position *)

Lemma orthogonal_inner (U : mat) (v : vec) :
  orthogonal U -> inner (dot U v) (dot U v) = inner v v.
Proof.
  intros H. rewrite inner_dot_gram. unfold orthogonal in H. rewrite H.
  rewrite dot_identity. reflexivity.
Qed.

(** X4: the indices that [get_HKL] returns obey Bragg's law.  With a valid
    cell, [U] from two independent reflections and [invUB] the inverse of
    [U B], the indices [h] of any position satisfy
    [h^t Minv h = (4 pi sin(two_theta / 2) / lam)^2]: the length of the
    scattering vector fixes the spacing of the lattice planes [h]. *)
Theorem get_HKL_bragg
        (u : cell) (p1 p2 : position) (a1 a2 : vec) (lam0 : R) (q1 q2 : vec)
        (tth th chi phi : R) :
  valid_cell u ->
  angles2cart_at p1 lam0 = Ret q1 ->
  angles2cart_at p2 lam0 = Ret q2 ->
  cross q1 q2 <> vzero ->
  cross a1 a2 <> vzero ->
  exists N r Bm U invUB h,
    Minv u = Ret N
    /\ reciprocal u = Ret r
    /\ B u r = Ret Bm
    /\ get_U p1 a1 p2 a2 Bm lam0 = Ret U
    /\ inv (matmul U Bm) = Ret invUB
    /\ get_HKL (tth, th, chi, phi) invUB lam0 = Ret h
    /\ inner h (dot N h) = (4 * PI * trigonometry.sin (tth / 2) / lam0) ^ 2.
Proof.
  intros Hv E1 E2 Hq Ha.
  destruct (valid_cell_B u Hv) as (N & Bm & HM & _ & HdN & Hr & HB & HBB).
  assert (Hd : det Bm <> 0).
  { intros E. rewrite <- HBB, det_matmul, det_transpose, E in HdN. lra. }
  assert (Hc : nonparallel (dot Bm a1) (dot Bm a2))
    by (apply nonparallel_iff_cross, cross_dot_nonzero; assumption).
  apply nonparallel_iff_cross in Hq.
  set (U := matmul (triad q1 q2) (transpose (triad (dot Bm a1) (dot Bm a2)))).
  assert (HU : rotation U)
    by (apply rotation_matmul_transpose; apply nonparallel_triad_rotation;
        assumption).
  assert (Hdet : det (matmul U Bm) <> 0).
  { rewrite det_matmul. destruct HU as [_ ->]. lra. }
  pose proof (inv_ret _ Hdet) as Hinv.
  assert (Hl : lam0 <> 0).
  { intros ->. destruct p1 as [[[t1 t2] t3] t4].
    unfold angles2cart_at, angles2cart in E1. rewrite vdiv_zero in E1.
    discriminate. }
  pose proof (angles2cart_ret tth th chi phi lam0 Hl) as Eq.
  set (k := 4 * PI * trigonometry.sin (tth / 2) / lam0) in *.
  set (q := vscale k (q_carterian_unit_vector (th - tth / 2) chi phi)) in *.
  set (iUB := mscale (/ det (matmul U Bm)) (adjugate (matmul U Bm))) in *.
  exists N, (cell_of N), Bm, U, iUB, (dot iUB q).
  split; [exact HM |]. split; [exact Hr |]. split; [exact HB |].
  split; [apply (get_U_ret _ _ _ _ _ _ _ _ E1 E2 Hq Hc) |].
  split; [exact Hinv |].
  split; [unfold get_HKL, angles2cart_at; rewrite Eq; reflexivity |].
  assert (Hs : dot (matmul U Bm) (dot iUB q) = q).
  { rewrite <- dot_matmul, (inv_right _ _ Hinv). apply dot_identity. }
  rewrite <- HBB, <- inner_dot_gram.
  rewrite <- (orthogonal_inner U _ (proj1 HU)), <- dot_matmul, Hs.
  unfold q. rewrite inner_vscale_l, inner_vscale_r, unit_vector_inner.
  simpl. ring.
Qed.

Lemma get_HKL_bragg_witness :
  exists N r Bm U invUB h,
    Minv (Cell 1 1 1 90 90 90) = Ret N
    /\ reciprocal (Cell 1 1 1 90 90 90) = Ret r
    /\ B (Cell 1 1 1 90 90 90) r = Ret Bm
    /\ get_U (180, 90, 90, 0) (V3 0 0 1) (180, 90, 0, 0) (V3 1 0 0) Bm 1
       = Ret U
    /\ inv (matmul U Bm) = Ret invUB
    /\ get_HKL (60, 30, 0, 0) invUB 1 = Ret h
    /\ inner h (dot N h) = (4 * PI * trigonometry.sin (60 / 2) / 1) ^ 2.
Proof.
  apply (get_HKL_bragg (Cell 1 1 1 90 90 90) (180, 90, 90, 0) (180, 90, 0, 0)
           (V3 0 0 1) (V3 1 0 0) 1 (V3 0 0 (4 * PI)) (V3 (4 * PI) 0 0)
           60 30 0 0).
  - exact valid_cell_cubic.
  - exact angles2cart_axis3.
  - exact angles2cart_axis1.
  - apply (axes_nonparallel (4 * PI) (4 * PI)); exact four_PI_neq0.
  - apply (axes_nonparallel 1 1); lra.
Defined.
